(** * Geometry.py: shapes, transformations, compositor and rasterizers

    A shallow embedding of [src/Geometry.py] (Python 2 with numpy).

    - Python exceptions are the [Raise] results of an error monad.
    - Python floats are kept abstract behind the classes [Arith], [Trig]
      and [Pixel]; two instances are given: the real numbers (the
      arithmetic without rounding, where [np.cos], [np.sin] and [pi] live),
      and the binary64 floats of the machine (where the code can be run,
      and where a numpy division by zero is an infinity or a NaN).
    - Objects compared by identity (the transformations of a list, the
      polygons used as dictionary keys) are addresses into a store. *)

From Stdlib Require Import List ZArith Bool Lia Reals Lra Floats.
Import ListNotations.

Local Open Scope Z_scope.

(** ** Exceptions and the error monad *)

Inductive exn : Type :=
| ZeroDivisionError
| IndexError
| ValueError
| OverflowError.

Inductive result (A : Type) : Type :=
| Ok (a : A)
| Raise (e : exn).

Arguments Ok {A} a.
Arguments Raise {A} e.

Definition bind {A B : Type} (c : result A) (k : A -> result B) : result B :=
  match c with
  | Ok a => k a
  | Raise e => Raise e
  end.

Notation "x <- c ;; k" := (bind c (fun x => k))
  (at level 61, c at next level, right associativity).
Notation "' p <- c ;; k" := (bind c (fun x => let p := x in k))
  (at level 61, p pattern, c at next level, right associativity).

(** A list comprehension, or a loop that appends: the first exception
    aborts it. *)
Fixpoint mapM {A B : Type} (f : A -> result B) (l : list A) : result (list B) :=
  match l with
  | [] => Ok []
  | a :: l' => b <- f a ;; bs <- mapM f l' ;; Ok (b :: bs)
  end.

(** A [for] loop that updates one variable. *)
Fixpoint foldM {A S : Type} (f : S -> A -> result S) (l : list A) (s : S) : result S :=
  match l with
  | [] => Ok s
  | a :: l' => s' <- f s a ;; foldM f l' s'
  end.

(** [range(n)]: empty when [n <= 0]. *)
Definition range (n : Z) : list Z :=
  map Z.of_nat (seq 0 (Z.to_nat n)).

(** [len(l)] *)
Definition len {A : Type} (l : list A) : Z := Z.of_nat (length l).

(** ** Numbers *)

(** The float operations of Python and numpy that never raise. [fdiv] is the
    division of numpy ([array / x], [np.float64 / np.float64]). *)
Class Arith (F : Type) : Type := {
  of_int : Z -> F;
  fadd : F -> F -> F;
  fsub : F -> F -> F;
  fmul : F -> F -> F;
  fdiv : F -> F -> F;
  fneg : F -> F;
  fgtb : F -> F -> bool
}.

(** [numpy.pi], [np.cos], [np.sin] *)
Class Trig (F : Type) : Type := {
  pi : F;
  np_cos : F -> F;
  np_sin : F -> F
}.

(** What the rasterizers need besides: [np.floor], [np.abs], the truth value
    of a float ([if slope:]) and [int(x)]. *)
Class Pixel (F : Type) : Type := {
  np_floor : F -> F;
  np_abs : F -> F;
  truth : F -> bool;
  py_int : F -> result Z
}.

(** Python's [x / n] for a float [x] and an int [n]: it raises on [n = 0]. *)
Definition py_div {F : Type} `{Arith F} (x : F) (n : Z) : result F :=
  if n =? 0 then Raise ZeroDivisionError else Ok (fdiv x (of_int n)).

(** *** Real numbers: arithmetic without rounding *)

#[export] Instance Arith_R : Arith R := {
  of_int := IZR;
  fadd := Rplus;
  fsub := Rminus;
  fmul := Rmult;
  fdiv := Rdiv;
  fneg := Ropp;
  fgtb := fun x y => if Rlt_dec y x then true else false
}.

#[export] Instance Trig_R : Trig R := {
  pi := PI;
  np_cos := cos;
  np_sin := sin
}.

(** *** binary64 *)

(** [float(n)], rounded to the nearest float. *)
Definition float_of_Z (n : Z) : float :=
  SF2Prim (binary_normalize prec emax n 0 false).

(** The magnitude of a finite float [m * 2^e], truncated to an integer. *)
Definition trunc_mag (m : positive) (e : Z) : Z :=
  if 0 <=? e then Z.pos m * 2 ^ e else Z.pos m / 2 ^ (- e).

Definition float_floor (x : float) : float :=
  match Prim2SF x with
  | S754_finite s m e =>
      if 0 <=? e then x
      else
        let q := trunc_mag m e in
        if s then
          if Z.pos m mod 2 ^ (- e) =? 0 then float_of_Z (- q)
          else float_of_Z (- (q + 1))
        else float_of_Z q
  | _ => x
  end.

Definition float_int (x : float) : result Z :=
  match Prim2SF x with
  | S754_nan => Raise ValueError
  | S754_infinity _ => Raise OverflowError
  | S754_zero _ => Ok 0
  | S754_finite s m e => Ok (if s then - trunc_mag m e else trunc_mag m e)
  end.

#[export] Instance Arith_float : Arith float := {
  of_int := float_of_Z;
  fadd := PrimFloat.add;
  fsub := PrimFloat.sub;
  fmul := PrimFloat.mul;
  fdiv := PrimFloat.div;
  fneg := PrimFloat.opp;
  fgtb := fun x y => PrimFloat.ltb y x
}.

#[export] Instance Pixel_float : Pixel float := {
  np_floor := float_floor;
  np_abs := PrimFloat.abs;
  truth := fun x => negb (PrimFloat.eqb x PrimFloat.zero);
  py_int := float_int
}.

(** ** Shapes *)

Section Shapes.
Context {F : Type} `{Arith F}.

Definition point : Type := (F * F)%type.

(** [p + q] and [p - q] on coordinate pairs. *)
Definition padd (p q : point) : point := (fadd (fst p) (fst q), fadd (snd p) (snd q)).
Definition psub (p q : point) : point := (fsub (fst p) (fst q), fsub (snd p) (snd q)).

(** class Polygon: [points] and [center]. *)
Record Polygon : Type := {
  points : list point;
  shape_center : point
}.

(** [Polygon.find_center]: [sum(self.points) / len(self.points)]; the sum
    starts at the int 0, and 0/0 on an empty list is a ZeroDivisionError. *)
Definition find_center (pts : list point) : result point :=
  let sum_point := fold_left padd pts (of_int 0, of_int 0) in
  x <- py_div (fst sum_point) (len pts) ;;
  y <- py_div (snd sum_point) (len pts) ;;
  Ok (x, y).

(** [Polygon.__init__] *)
Definition mk_Polygon (pts : list point) : result Polygon :=
  c <- find_center pts ;;
  Ok {| points := pts; shape_center := c |}.

(** [n_Sided_Polygon.__init__] *)
Definition n_Sided_Polygon `{Trig F} (N : Z) (radius : F) (center : point) (angle : F)
  : result Polygon :=
  pts <- mapM (fun n =>
           q <- py_div (fmul (fmul (of_int 2) pi) (of_int n)) N ;;
           let x_coord := fadd (fmul radius (np_cos (fadd q angle))) (fst center) in
           let y_coord := fadd (fmul radius (np_sin (fadd q angle))) (snd center) in
           Ok (x_coord, y_coord))
         (range N) ;;
  mk_Polygon pts.

(** ** Transformations *)

(** A 2x2 matrix, by rows. *)
Definition mat2 : Type := ((F * F) * (F * F))%type.

(** The attributes of a Rotation or Dilation object. *)
Record Transformation : Type := {
  trans_mat : list mat2;
  center : option point
}.

(** [Rotation.__init__] *)
Definition Rotation `{Trig F} (theta : F) (center : option point) (depth : Z)
  : result Transformation :=
  let theta := fdiv (fmul theta pi) (of_int 180) in
  trans_mat <- mapM (fun i =>
                 q <- py_div theta depth ;;
                 let a := fmul q (of_int i) in
                 Ok ((np_cos a, fneg (np_sin a)), (np_sin a, np_cos a)))
               (range (depth + 1)) ;;
  Ok {| trans_mat := trans_mat;
        center := match center with
                  | Some c => Some c
                  | None => None
                  end |}.

(** [Dilation.__init__] *)
Definition Dilation (scale_factor : F) (depth : Z) : result Transformation :=
  if fgtb scale_factor (of_int 1) then
    trans_mat <- mapM (fun i =>
                   q <- py_div (fmul (of_int i) scale_factor) depth ;;
                   Ok ((fadd (of_int 1) q, of_int 0), (of_int 0, fadd (of_int 1) q)))
                 (range (depth + 1)) ;;
    Ok {| trans_mat := trans_mat; center := None |}
  else
    let scale_factor := fsub (of_int 1) scale_factor in
    trans_mat <- mapM (fun i =>
                   q <- py_div (fmul (of_int i) scale_factor) depth ;;
                   Ok ((fsub (of_int 1) q, of_int 0), (of_int 0, fsub (of_int 1) q)))
                 (range (depth + 1)) ;;
    Ok {| trans_mat := trans_mat; center := None |}.

End Shapes.

Arguments point F : clear implicits.
Arguments Polygon F : clear implicits.
Arguments mat2 F : clear implicits.
Arguments Transformation F : clear implicits.

(** ** Python containers *)

(** [l[i]] for an int [i >= 0] that the code never makes negative. *)
Definition getitem {A : Type} (l : list A) (i : Z) : result A :=
  match nth_error l (Z.to_nat i) with
  | Some a => Ok a
  | None => Raise IndexError
  end.

(** The position that an int index [i] denotes in a sequence of length [n]:
    negative indices count from the end. *)
Definition norm_index (n i : Z) : result Z :=
  if (0 <=? i) && (i <? n) then Ok i
  else if (- n <=? i) && (i <? 0) then Ok (n + i)
  else Raise IndexError.

(** The position that a slice bound [i] denotes: never an error. *)
Definition norm_bound (n i : Z) : Z :=
  if i <? 0 then Z.max 0 (n + i) else Z.min i n.

(** Objects are compared by identity: an address stands for an object. *)
Definition addr : Type := nat.

(** [t in l] for objects without [__eq__]. *)
Definition contains (l : list addr) (t : addr) : bool :=
  existsb (Nat.eqb t) l.

(** [d[k] = v] on a dictionary kept as the list of its items, in the order
    in which the dictionary is iterated; a new key is put last. *)
Fixpoint dict_set {V : Type} (d : list (addr * V)) (k : addr) (v : V) : list (addr * V) :=
  match d with
  | [] => [(k, v)]
  | (k', v') :: d' =>
      if Nat.eqb k' k then (k', v) :: d' else (k', v') :: dict_set d' k v
  end.

(** ** Compositor *)

Section Compositor.
Context {F : Type} `{Arith F}.

(** The points of a shape at one depth (the columns of a 2xN array), and
    the points at every depth. *)
Definition frame : Type := list (point F).
Definition stack : Type := list frame.

(** The store of the Rotation and Dilation objects. *)
Variable transformation_at : addr -> Transformation F.

(** Lines 141-144 of [render_shapes]. *)
Definition reorder (transformations : list addr) : list addr :=
  let center_transformations :=
    filter (fun transformation =>
              match center (transformation_at transformation) with
              | None => true
              | Some _ => false
              end) transformations in
  let other_transformations :=
    filter (fun transformation => negb (contains center_transformations transformation))
           transformations in
  center_transformations ++ other_transformations.

(** [np.dot(m, frame)] for a 2x2 matrix and a 2xN array. *)
Definition mat_apply (m : mat2 F) (p : point F) : point F :=
  (fadd (fmul (fst (fst m)) (fst p)) (fmul (snd (fst m)) (snd p)),
   fadd (fmul (fst (snd m)) (fst p)) (fmul (snd (snd m)) (snd p))).

Definition np_dot (m : mat2 F) (fr : frame) : frame := map (mat_apply m) fr.

(** [np.dot(trans_mat, new_shape.T)] for the whole stack of matrices; numpy
    refuses an empty stack (shapes not aligned). *)
Definition np_dot_stack (ms : list (mat2 F)) (fr : frame) : result stack :=
  match ms with
  | [] => Raise ValueError
  | _ => Ok (map (fun m => np_dot m fr) ms)
  end.

(** The first transformation of the list (lines 150-157). *)
Definition apply_first (shape : Polygon F) (t : Transformation F) : result stack :=
  match center t with
  | Some c =>
      let new_shape := map (fun p => psub p c) (points shape) in
      new_shape <- np_dot_stack (trans_mat t) new_shape ;;
      Ok (map (map (fun p => padd p c)) new_shape)
  | None =>
      let new_shape := map (fun p => psub p (shape_center shape)) (points shape) in
      new_shape <- np_dot_stack (trans_mat t) new_shape ;;
      Ok (map (map (fun p => padd p (shape_center shape))) new_shape)
  end.

(** [[np.dot(trans_mat[i], new_shape[i]) for i in range(len(trans_mat))]]; a
    frame without points is the 1-d empty array left by an empty stack,
    which [np.dot] refuses. *)
Definition dot_each (ms : list (mat2 F)) (new_shape : stack) : result stack :=
  mapM (fun i =>
          m <- getitem ms i ;;
          fr <- getitem new_shape i ;;
          match fr with
          | [] => Raise ValueError
          | _ => Ok (np_dot m fr)
          end)
       (range (len ms)).

(** [new_shape + c.reshape(2,1)] for the list [new_shape]: an empty list
    broadcasts to an array of shape (2,0). *)
Definition add_pivot (new_shape : stack) (c : point F) : stack :=
  match new_shape with
  | [] => [[]; []]
  | _ => map (map (fun p => padd p c)) new_shape
  end.

(** Every later transformation (lines 160-168). *)
Definition apply_next (shape : Polygon F) (new_shape : stack) (t : Transformation F)
  : result stack :=
  match center t with
  | Some c =>
      let new_shape := map (map (fun p => psub p c)) new_shape in
      new_shape <- dot_each (trans_mat t) new_shape ;;
      Ok (add_pivot new_shape c)
  | None =>
      let new_shape := map (map (fun p => psub p (shape_center shape))) new_shape in
      new_shape <- dot_each (trans_mat t) new_shape ;;
      Ok (add_pivot new_shape (shape_center shape))
  end.

(** The transformations applied one after the other, in the order of the
    list: [transformations[0]], then the loop over [transformations[1:]]. *)
Definition apply_all (shape : Polygon F) (transformations : list addr) : result stack :=
  match transformations with
  | [] => Raise IndexError
  | t0 :: rest =>
      new_shape <- apply_first shape (transformation_at t0) ;;
      foldM (fun new_shape t => apply_next shape new_shape (transformation_at t))
            rest new_shape
  end.

(** The body of the loop of [render_shapes] for one item of [self.shapes]. *)
Definition render_shape (shape : Polygon F) (transformations : list addr) : result stack :=
  let transformations := reorder transformations in
  apply_all shape transformations.

End Compositor.

Arguments frame F : clear implicits.
Arguments stack F : clear implicits.

(** ** Rasterizers *)

(** A black and white image: rows of pixels. *)
Definition image : Type := list (list bool).
Definition volume : Type := list image.

(** [np.zeros((resolution, resolution), dtype=bool)] *)
Definition np_zeros (resolution : Z) : result image :=
  if resolution <? 0 then Raise ValueError
  else Ok (repeat (repeat false (Z.to_nat resolution)) (Z.to_nat resolution)).

(** [row[lo:hi] = f(row[lo:hi])] for normalized bounds; [i] is the position
    of the head of [row]. *)
Fixpoint update_from (i lo hi : Z) (f : bool -> bool) (row : list bool) : list bool :=
  match row with
  | [] => []
  | b :: row' =>
      (if (lo <=? i) && (i <? hi) then f b else b) :: update_from (i + 1) lo hi f row'
  end.

(** [row[start:stop] = f(row[start:stop])] *)
Definition update_slice (f : bool -> bool) (start stop : Z) (row : list bool) : list bool :=
  update_from 0 (norm_bound (len row) start) (norm_bound (len row) stop) f row.

(** [img[i]] replaced by [g img[i]], for the position [i]. *)
Fixpoint update_row (i : nat) (g : list bool -> list bool) (img : image) : image :=
  match img, i with
  | [], _ => []
  | row :: img', O => g row :: img'
  | row :: img', S i' => row :: update_row i' g img'
  end.

(** [output_image[r][0:stop] = np.logical_xor(True, output_image[r][0:stop])] *)
Definition toggle_left (img : image) (r stop : Z) : result image :=
  i <- norm_index (len img) r ;;
  Ok (update_row (Z.to_nat i) (update_slice negb 0 stop) img).

(** [output_image[r][start:stop] = True] *)
Definition set_slice (img : image) (r start stop : Z) : result image :=
  i <- norm_index (len img) r ;;
  Ok (update_row (Z.to_nat i) (update_slice (fun _ => true) start stop) img).

(** [output_image[r][c] = True] *)
Definition set_pixel (img : image) (r c : Z) : result image :=
  i <- norm_index (len img) r ;;
  row <- getitem img i ;;
  j <- norm_index (len row) c ;;
  Ok (update_row (Z.to_nat i) (update_from 0 j (j + 1) (fun _ => true)) img).

(** [output_image[r][c]] *)
Definition get_pixel (img : image) (r c : Z) : result bool :=
  i <- norm_index (len img) r ;;
  row <- getitem img i ;;
  j <- norm_index (len row) c ;;
  getitem row j.

Section Rasterizer.
Context {F : Type} `{Arith F} `{Pixel F}.

(** Lines 187-201 (and 251-265): the points closed into a ring, shifted,
    scaled and floored to pixel coordinates. *)
Definition pixel_points (points : list (point F)) (bounds : point F) (resolution : Z)
  : result (list (point F)) :=
  step_size <- py_div (fmul (snd bounds) (of_int 2)) resolution ;;
  p0 <- getitem points 0 ;;
  let points := points ++ [p0] in
  let points := map (fun p => (fadd (fst p) (snd bounds), fadd (snd p) (snd bounds))) points in
  let points := map (fun p => (fdiv (fst p) step_size, fdiv (snd p) step_size)) points in
  let points := map (fun p => (np_floor (fst p), np_floor (snd p))) points in
  Ok points.

(** [(p2[1]-p1[1])/(p2[0]-p1[0])] on numpy floats: never an exception. *)
Definition slope_of (p1 p2 : point F) : F :=
  fdiv (fsub (snd p2) (snd p1)) (fsub (fst p2) (fst p1)).

(** The pixel of a step in the y-direction (lines 214-220 and 280-286). *)
Definition y_step_pixel (p1 p2 : point F) (slope : F) (y_step : Z) : result (Z * Z) :=
  if fgtb (snd p2) (snd p1) then
    new_y <- py_int (fadd (snd p1) (of_int y_step)) ;;
    new_x <- py_int (fadd (fst p1) (fdiv (of_int y_step) slope)) ;;
    Ok (new_y, new_x)
  else
    new_y <- py_int (fsub (snd p1) (of_int y_step)) ;;
    new_x <- py_int (fsub (fst p1) (fdiv (of_int y_step) slope)) ;;
    Ok (new_y, new_x).

(** One edge of the filled mode (lines 205-223). *)
Definition fill_edge (output_image : image) (edge : point F * point F) : result image :=
  let (p1, p2) := edge in
  let slope := slope_of p1 p2 in
  n <- py_int (np_abs (fsub (snd p2) (snd p1))) ;;
  foldM (fun output_image y_step =>
           if truth slope then
             '(new_y, new_x) <- y_step_pixel p1 p2 slope y_step ;;
             toggle_left output_image (- new_y) new_x
           else Ok output_image)
        (range n) output_image.

(** One vertex of the correction pass (lines 228-229); the float indices
    are converted as numpy did when the code was written. *)
Definition fix_corner (output_image : image) (p : point F) : result image :=
  r <- py_int (fneg (snd p)) ;;
  b <- get_pixel output_image r 0 ;;
  if b then
    stop <- py_int (fst p) ;;
    toggle_left output_image r stop
  else Ok output_image.

(** The pairs [(points[i], points[i+1])] for [i] in [range(len(points)-1)]. *)
Definition edges (points : list (point F)) : list (point F * point F) :=
  combine points (tl points).

(** [Animation.render_points_as_image] *)
Definition render_points_as_image (points : list (point F)) (bounds : point F)
  (resolution : Z) : result image :=
  output_image <- np_zeros resolution ;;
  points <- pixel_points points bounds resolution ;;
  output_image <- foldM fill_edge (edges points) output_image ;;
  foldM fix_corner (removelast points) output_image.

(** The pixel of a step in the x-direction when the slope is not zero
    (lines 293-299). *)
Definition x_step_pixel (p1 p2 : point F) (slope : F) (x_step : Z) : result (Z * Z) :=
  if fgtb (fst p2) (fst p1) then
    new_y <- py_int (fadd (snd p1) (fmul (of_int x_step) slope)) ;;
    new_x <- py_int (fadd (fst p1) (of_int x_step)) ;;
    Ok (new_y, new_x)
  else
    new_y <- py_int (fsub (snd p1) (fmul (of_int x_step) slope)) ;;
    new_x <- py_int (fsub (fst p1) (of_int x_step)) ;;
    Ok (new_y, new_x).

(** One step in the x-direction (lines 292-307); on a zero slope the
    indices are floats. *)
Definition wire_x_step (p1 p2 : point F) (slope : F) (output_image : image) (x_step : Z)
  : result image :=
  if truth slope then
    '(new_y, new_x) <- x_step_pixel p1 p2 slope x_step ;;
    set_slice output_image (- new_y) (new_x - 1) (new_x + 1)
  else
    let new_y := snd p1 in
    let new_x := if fgtb (fst p1) (fst p2)
                 then fsub (fst p1) (of_int x_step)
                 else fadd (fst p1) (of_int x_step) in
    r <- py_int (fneg new_y) ;;
    start <- py_int (fsub new_x (of_int 1)) ;;
    stop <- py_int (fadd new_x (of_int 1)) ;;
    set_slice output_image r start stop.

(** One edge of the wireframe mode (lines 269-307). *)
Definition wire_edge (output_image : image) (edge : point F * point F) : result image :=
  let (p1, p2) := edge in
  let slope := slope_of p1 p2 in
  if fgtb (np_abs slope) (of_int 1) then
    n <- py_int (np_abs (fsub (snd p2) (snd p1))) ;;
    foldM (fun output_image y_step =>
             if truth slope then
               '(new_y, new_x) <- y_step_pixel p1 p2 slope y_step ;;
               set_pixel output_image (- new_y) new_x
             else Ok output_image)
          (range n) output_image
  else
    n <- py_int (np_abs (fsub (fst p2) (fst p1))) ;;
    foldM (wire_x_step p1 p2 slope) (range n) output_image.

(** [Animation.render_points_as_wires] *)
Definition render_points_as_wires (points : list (point F)) (bounds : point F)
  (resolution : Z) (output_image : option image) : result image :=
  output_image <- match output_image with
                  | None => np_zeros resolution
                  | Some img => Ok img
                  end ;;
  points <- pixel_points points bounds resolution ;;
  foldM wire_edge (edges points) output_image.

End Rasterizer.

(** ** Volume assembly *)

Fixpoint zip_with {A B C : Type} (f : A -> B -> C) (l : list A) (l' : list B) : list C :=
  match l, l' with
  | a :: t, b :: t' => f a b :: zip_with f t t'
  | _, _ => []
  end.

(** [np.logical_or] on two images of the same size. *)
Definition or_image (a b : image) : image := zip_with (zip_with orb) a b.

(** [np.logical_or(final_volume, volume_data)]: an array with one layer is
    broadcast along the depth axis, other differences of length are refused,
    and so is an empty list. *)
Definition np_logical_or (final_volume volume_data : volume) : result volume :=
  match volume_data with
  | [] => Raise ValueError
  | v0 :: _ =>
      if len final_volume =? len volume_data then Ok (zip_with or_image final_volume volume_data)
      else if len volume_data =? 1 then Ok (map (fun a => or_image a v0) final_volume)
      else match final_volume with
           | [a0] => Ok (map (fun v => or_image a0 v) volume_data)
           | _ => Raise ValueError
           end
  end.

(** [l[i] = x] for a position [i] of [l]. *)
Fixpoint list_set {A : Type} (l : list A) (i : nat) (x : A) : list A :=
  match l, i with
  | [], _ => []
  | _ :: t, O => x :: t
  | a :: t, S i' => a :: list_set t i' x
  end.

Section Volume.
Context {F : Type} `{Arith F} `{Pixel F}.

(** Lines 339-341: one shape drawn on the shared layers. *)
Definition draw_wires (bounds : point F) (resolution : Z) (final_volume : volume)
  (shape : stack F) : result volume :=
  foldM (fun final_volume i =>
           points <- getitem shape i ;;
           layer <- getitem final_volume i ;;
           image <- render_points_as_wires points bounds resolution (Some layer) ;;
           Ok (list_set final_volume (Z.to_nat i) image))
        (range (len shape)) final_volume.

(** Lines 346-352: one shape filled into a volume of its own, then or-ed. *)
Definition draw_filled (bounds : point F) (resolution : Z) (final_volume : volume)
  (shape : stack F) : result volume :=
  volume_data <- mapM (fun points => render_points_as_image points bounds resolution) shape ;;
  np_logical_or final_volume volume_data.

(** Lines 332-359 of [render_volume_data], on the rendered shapes. *)
Definition assemble (final_shapes : list (stack F)) (bounds : point F) (resolution : Z)
  (fast : bool) : result volume :=
  first <- getitem final_shapes 0 ;;
  layer <- np_zeros resolution ;;
  let final_volume := repeat layer (length first) in
  if fast then foldM (draw_wires bounds resolution) final_shapes final_volume
  else foldM (draw_filled bounds resolution) final_shapes final_volume.

(** ** Animation *)

(** The store of the Polygon objects and of the transformations. *)
Variable polygon_at : addr -> Polygon F.
Variable transformation_at : addr -> Transformation F.

(** [self.shapes] (a dictionary from polygons to lists of transformations,
    as the list of its items) and [self.final_shapes]. *)
Record Animation : Type := {
  shapes : list (addr * list addr);
  final_shapes : option (list (stack F))
}.

(** [Animation.__init__] *)
Definition mk_Animation (polygon : addr) (transformations : list addr) : Animation :=
  {| shapes := dict_set [] polygon transformations; final_shapes := None |}.

(** [Animation.add_shape] *)
Definition add_shape (self : Animation) (polygon : addr) (transformations : list addr)
  : Animation :=
  {| shapes := dict_set (shapes self) polygon transformations;
     final_shapes := final_shapes self |}.

(** [Animation.render_shapes]: the new value of [self]; after an exception
    [self] is as it was. *)
Definition render_shapes (self : Animation) : result Animation :=
  final_shapes <- mapM (fun item =>
                          render_shape transformation_at (polygon_at (fst item)) (snd item))
                       (shapes self) ;;
  Ok {| shapes := shapes self; final_shapes := Some final_shapes |}.

(** [Animation.render_volume_data]: the new value of [self] and the result. *)
Definition render_volume_data (self : Animation) (bounds : point F) (resolution : Z)
  (fast : bool) : Animation * result volume :=
  match final_shapes self with
  | None =>
      match render_shapes self with
      | Raise e => (self, Raise e)
      | Ok self' =>
          (self', match final_shapes self' with
                  | Some fs => assemble fs bounds resolution fast
                  | None => Raise IndexError
                  end)
      end
  | Some fs => (self, assemble fs bounds resolution fast)
  end.

End Volume.

Arguments Animation F : clear implicits.

(** ** The other constructors and methods *)

(** [math.sqrt]: a ValueError below zero. *)
Class Sqrt (F : Type) : Type := {
  math_sqrt : F -> result F
}.

#[export] Instance Sqrt_R : Sqrt R := {
  math_sqrt := fun x => if Rlt_dec x 0 then Raise ValueError else Ok (R_sqrt.sqrt x)
}.

#[export] Instance Sqrt_float : Sqrt float := {
  math_sqrt := fun x =>
    if PrimFloat.ltb x PrimFloat.zero then Raise ValueError else Ok (PrimFloat.sqrt x)
}.

Section MoreShapes.
Context {F : Type} `{Arith F}.

(** [Polygon.__add__]: the polygon of the points moved by the vector
    [other]. *)
Definition Polygon_add (self : Polygon F) (other : point F) : result (Polygon F) :=
  mk_Polygon (map (fun p => padd p other) (points self)).

(** [Polygon.__mul__]: the polygon of the points multiplied by the scalar
    [other]. *)
Definition Polygon_mul (self : Polygon F) (other : F) : result (Polygon F) :=
  mk_Polygon (map (fun p => (fmul (fst p) other, fmul (snd p) other)) (points self)).

(** [Square.__init__]; the default angle is [pi/4]. *)
Definition Square `{Trig F} `{Sqrt F} (l : F) (center : point F) (angle : F)
  : result (Polygon F) :=
  root <- math_sqrt (of_int 2) ;;
  n_Sided_Polygon 4 (fdiv (fmul root l) (of_int 2)) center angle.

(** [Circle.__init__] *)
Definition Circle `{Trig F} (r : F) (center : point F) : result (Polygon F) :=
  n_Sided_Polygon 50 r center (of_int 0).

End MoreShapes.

(** The objects handed to the solid modelling library by [write_to_scad]:
    [sp.polygon(points)], [sp.linear_extrude(height)(s)] and [up(z)(s)]. *)
Inductive solid (F : Type) : Type :=
| sp_polygon (pts : list (point F))
| linear_extrude (height : F) (s : solid F)
| up (z : F) (s : solid F).

Arguments sp_polygon {F} pts.
Arguments linear_extrude {F} height s.
Arguments up {F} z s.

Section ScadExport.
Context {F : Type} `{Arith F}.
Variable polygon_at : addr -> Polygon F.
Variable transformation_at : addr -> Transformation F.

(** Lines 369-379: the 501 extrusions of one shape. *)
Definition solid_shapes (shape : stack F) : result (list (solid F)) :=
  mapM (fun i =>
          solid_shape <- getitem shape i ;;
          Ok (up (fdiv (of_int i) (of_int 5))
                 (linear_extrude (fdiv (of_int 21) (of_int 100))
                                 (sp_polygon solid_shape))))
       (range 501).

(** [Animation.write_to_scad]: the new value of [self] and the argument of
    [union()], which is rendered to the file. *)
Definition write_to_scad (self : Animation F) : Animation F * result (list (list (solid F))) :=
  match final_shapes self with
  | None =>
      match render_shapes polygon_at transformation_at self with
      | Raise e => (self, Raise e)
      | Ok self' =>
          (self', match final_shapes self' with
                  | Some fs => mapM solid_shapes fs
                  | None => Raise IndexError
                  end)
      end
  | Some fs => (self, mapM solid_shapes fs)
  end.

End ScadExport.

(** [d[k]] on the items of a dictionary. *)
Fixpoint dict_get {V : Type} (d : list (addr * V)) (k : addr) : option V :=
  match d with
  | [] => None
  | (k', v) :: d' => if Nat.eqb k' k then Some v else dict_get d' k
  end.

(** ** Notions used in the statements *)

(** *** Matrices and angles *)

(** The rotation matrix of the angle [a] (in radians). *)
Definition rotation_matrix (a : R) : mat2 R :=
  ((cos a, (- sin a)%R), (sin a, cos a)).

Definition identity_matrix : mat2 R := ((1%R, 0%R), (0%R, 1%R)).

(** The scaling matrix of the factor [k]. *)
Definition scaling_matrix {F : Type} `{Arith F} (k : F) : mat2 F :=
  ((k, of_int 0), (of_int 0, k)).

(** The angle of the vertex [n] of a regular N-gon that starts at [a]. *)
Definition vertex_angle (N : Z) (a : R) (n : Z) : R :=
  (2 * PI * IZR n / IZR N + a)%R.

(** The point at the angle [phi] and the (signed) distance [r] from [c]. *)
Definition polar (c : point R) (r phi : R) : point R :=
  (r * cos phi + fst c, r * sin phi + snd c)%R.

(** Euclidean distance. *)
Definition dist (p q : point R) : R :=
  R_sqrt.sqrt (Rsqr (fst p - fst q) + Rsqr (snd p - snd q)).

(** The sum of a list of reals. *)
Definition Rsum (l : list R) : R := fold_right Rplus 0%R l.

(** *** The order of the transformations *)

(** A transformation without pivot is applied about the center of the
    shape. *)
Definition center_relative {F : Type} `{Arith F} (store : addr -> Transformation F)
  (t : addr) : bool :=
  match center (store t) with
  | None => true
  | Some _ => false
  end.

(** The stable partition of a list: the elements that satisfy [p], then the
    others, each group in the order of the list. *)
Definition stable_partition {A : Type} (p : A -> bool) (l : list A) : list A :=
  filter p l ++ filter (fun a => negb (p a)) l.

(** The pivot of a transformation applied to a shape: its own, or the
    center of the shape. *)
Definition pivot_of {F : Type} (shape : Polygon F) (t : Transformation F) : point F :=
  match center t with
  | Some c => c
  | None => shape_center shape
  end.

(** A point turned or scaled by the matrix [m] about the pivot [c]. *)
Definition about {F : Type} `{Arith F} (c : point F) (m : mat2 F) (p : point F) : point F :=
  padd (mat_apply m (psub p c)) c.

(** The point [p] moved by the matrix [i] of every transformation of the
    list [ts], one after the other in the order of the list, each about its
    pivot. (The default matrix is not used when every stack has a matrix
    [i].) *)
Definition moved_by {F : Type} `{Arith F} (store : addr -> Transformation F)
  (shape : Polygon F) (i : Z) (ts : list addr) (p : point F) : point F :=
  fold_left (fun q t =>
               about (pivot_of shape (store t))
                     (nth (Z.to_nat i) (trans_mat (store t)) (scaling_matrix (of_int 1))) q)
            ts p.

(** A store over the reals in which every object is the Rotation of the
    angle [theta] (in degrees), the pivot [c] and the depth [D]. *)
Definition rotation_store (theta : R) (c : option (point R)) (D : Z) (a : addr)
  : Transformation R :=
  {| trans_mat := map (fun i => rotation_matrix (theta * PI / 180 * IZR i / IZR D))
                      (range (D + 1));
     center := c |}.

(** The triangle (0,0), (1,0), (0,1) with the center (1/3, 1/3). *)
Definition triangle : Polygon R :=
  {| points := [(0%R, 0%R); (1%R, 0%R); (0%R, 1%R)];
     shape_center := ((1 / 3)%R, (1 / 3)%R) |}.

(** A stack of [L] point sets of [N] points each. *)
Definition shaped {F : Type} (L N : nat) (st : stack F) : Prop :=
  length st = L /\ Forall (fun fr => length fr = N) st.

(** *** Pixels *)

(** The pixel of the row [r] and the column [c] of an image (positions
    from the top left), and the voxel of a volume. *)
Definition pixel (img : image) (r c : nat) : bool := nth c (nth r img []) false.

Definition voxel (vol : volume) (d r c : nat) : bool := pixel (nth d vol []) r c.

(** Every pixel that is set in [img] is set in [img']. *)
Definition covers (img img' : image) : Prop :=
  forall r c, pixel img r c = true -> pixel img' r c = true.

Definition covers_vol (vol vol' : volume) : Prop :=
  forall d r c, voxel vol d r c = true -> voxel vol' d r c = true.

(** A square image of [n] rows and [n] columns. *)
Definition square (n : nat) (img : image) : Prop :=
  length img = n /\ Forall (fun row => length row = n) img.

(** *** Exceptions and special floats *)

(** The value of a computation that returns. *)
Definition value {A : Type} (dflt : A) (r : result A) : A :=
  match r with
  | Ok a => a
  | Raise _ => dflt
  end.

(** A computation that does not end in a division fault. *)
Definition no_division_fault {A : Type} (r : result A) : Prop :=
  r <> Raise ZeroDivisionError.

(** The float is an infinity or a NaN. *)
Definition undefined_slope (x : float) : Prop :=
  match Prim2SF x with
  | S754_nan | S754_infinity _ => True
  | S754_zero _ | S754_finite _ _ _ => False
  end.

(** The float is a number (a zero or a finite float). *)
Definition is_number (x : float) : Prop :=
  match Prim2SF x with
  | S754_zero _ | S754_finite _ _ _ => True
  | S754_nan | S754_infinity _ => False
  end.

(** *** The state of an animation *)

(** An animation as the constructor leaves it, for the items of a mapping. *)
Definition unrendered {F : Type} (items : list (addr * list addr)) : Animation F :=
  {| shapes := items; final_shapes := None |}.

(** [self.final_shapes] is absent or is what [render_shapes] computes from
    the current [self.shapes]. *)
Definition coherent {F : Type} `{Arith F} (polygon_at : addr -> Polygon F)
  (transformation_at : addr -> Transformation F) (self : Animation F) : Prop :=
  match final_shapes self with
  | None => True
  | Some fs =>
      render_shapes polygon_at transformation_at (unrendered (shapes self)) =
      Ok {| shapes := shapes self; final_shapes := Some fs |}
  end.

(** ** Examples on the floats of the machine *)

Definition flt (n : Z) : float := float_of_Z n.

(** The store of the transformations: the object 0 has the fixed pivot
    (0,0), every other object is what [Dilation(1, 1)] returns; all keep
    every point where it is. *)
Definition unit_stack : list (mat2 float) :=
  [scaling_matrix (flt 1); scaling_matrix (flt 1)].

Definition example_store (a : addr) : Transformation float :=
  match a with
  | O => {| trans_mat := unit_stack; center := Some (flt 0, flt 0) |}
  | _ => {| trans_mat := unit_stack; center := None |}
  end.

(** A store in which the object [a] has no pivot and a stack of [a+1]
    matrices that keep every point where it is. *)
Definition depth_store (a : addr) : Transformation float :=
  {| trans_mat := repeat (scaling_matrix (flt 1)) (S a); center := None |}.

(** Two overlapping squares, the store of the polygons that hold them (the
    object 0 is the big one), and the bounds of a 10x10 raster of unit
    pixels. *)
Definition big_square : list (point float) :=
  [(flt 2, flt 2); (flt (-2), flt 2); (flt (-2), flt (-2)); (flt 2, flt (-2))].

Definition small_square : list (point float) :=
  [(flt 4, flt 4); (flt 1, flt 4); (flt 1, flt 1); (flt 4, flt 1)].

Definition example_polygon_at (a : addr) : Polygon float :=
  match a with
  | O => {| points := big_square; shape_center := (flt 0, flt 0) |}
  | _ => {| points := small_square;
            shape_center := (fdiv (flt 5) (flt 2), fdiv (flt 5) (flt 2)) |}
  end.

Definition example_bounds : point float := (flt 5, flt 5).

(** The animation of the big square alone, and the one of the two squares,
    each square with the transformation 1 of the store. *)
Definition one_square : Animation float := mk_Animation 0%nat [1%nat].

Definition two_squares : Animation float := add_shape one_square 1%nat [1%nat].

(** The animation of the big square after a first rendering (on the wires,
    at the resolution 10), and the same with the small square added
    afterwards. *)
Definition one_square_rendered : Animation float :=
  fst (render_volume_data example_polygon_at example_store one_square
         example_bounds 10 true).

Definition late_two_squares : Animation float :=
  add_shape one_square_rendered 1%nat [1%nat].

(** A store of two transformations that do not commute: the object 0 turns
    by a quarter about the fixed pivot (1,0) at its last depth, every other
    object is what [Dilation(2, 1)] returns (the factors 1 and 3, no
    pivot). *)
Definition quarter_turn : mat2 float := ((flt 0, flt (-1)), (flt 1, flt 0)).

Definition pivot_store (a : addr) : Transformation float :=
  match a with
  | O => {| trans_mat := [scaling_matrix (flt 1); quarter_turn];
            center := Some (flt 1, flt 0) |}
  | _ => {| trans_mat := [scaling_matrix (flt 1); scaling_matrix (flt 3)];
            center := None |}
  end.

(* ================================================================= *)
(** * Properties *)

(** ** The examples are what the constructors return *)

Example example_polygons :
  mk_Polygon big_square = Ok (example_polygon_at 0%nat) /\
  mk_Polygon small_square = Ok (example_polygon_at 1%nat).
Proof. split; vm_compute; reflexivity. Qed.

Example example_dilation : Dilation (flt 1) 1 = Ok (example_store 1%nat).
Proof. vm_compute. reflexivity. Qed.

(** ** The error monad and [range] *)

Lemma mapM_total {A B : Type} (f : A -> result B) (g : A -> B) (l : list A) :
  (forall a, In a l -> f a = Ok (g a)) -> mapM f l = Ok (map g l).
Proof.
  induction l as [| a l IH]; intros Hf; simpl.
  - reflexivity.
  - rewrite (Hf a (or_introl eq_refl)). simpl.
    rewrite IH by (intros b Hb; apply Hf; right; exact Hb).
    reflexivity.
Qed.

Lemma mapM_length {A B : Type} (f : A -> result B) (l : list A) (bs : list B) :
  mapM f l = Ok bs -> length bs = length l.
Proof.
  revert bs. induction l as [| a l IH]; intros bs; simpl.
  - intros [= <-]. reflexivity.
  - destruct (f a) as [b |]; simpl; [| discriminate].
    destruct (mapM f l) as [bs' |]; simpl; [| discriminate].
    intros [= <-]. simpl. f_equal. apply IH. reflexivity.
Qed.

Lemma range_length (n : Z) : length (range n) = Z.to_nat n.
Proof. unfold range. rewrite length_map, length_seq. reflexivity. Qed.

Lemma len_range (n : Z) : 0 <= n -> len (range n) = n.
Proof. intros Hn. unfold len. rewrite range_length. lia. Qed.

Lemma in_range (n i : Z) : In i (range n) <-> 0 <= i < n.
Proof.
  unfold range. rewrite in_map_iff. split.
  - intros [k [<- Hk]]. apply in_seq in Hk. lia.
  - intros Hi. exists (Z.to_nat i). split; [lia |]. apply in_seq. lia.
Qed.

Lemma getitem_map_range {B : Type} (g : Z -> B) (n i : Z) :
  0 <= i < n -> getitem (map g (range n)) i = Ok (g i).
Proof.
  intros Hi. unfold getitem, range.
  rewrite nth_error_map, nth_error_map.
  rewrite nth_error_seq.
  destruct (Nat.ltb_spec (Z.to_nat i) (Z.to_nat n)) as [_ | Hge]; [| lia].
  simpl. f_equal. f_equal. lia.
Qed.

(** ** Rotation *)

Lemma rotation_matrix_0 : rotation_matrix 0 = identity_matrix.
Proof.
  unfold rotation_matrix, identity_matrix.
  rewrite cos_0, sin_0, Ropp_0. reflexivity.
Qed.

(** Wherever the depth is not zero the constructor returns, with one
    matrix for each index of [range(depth+1)]. *)
Lemma Rotation_stack (theta : R) (c : option (point R)) (depth : Z) :
  depth <> 0 ->
  Rotation theta c depth =
  Ok {| trans_mat :=
          map (fun i => rotation_matrix (theta * PI / 180 * IZR i / IZR depth))
              (range (depth + 1));
        center := c |}.
Proof.
  intros Hd. unfold Rotation.
  rewrite (mapM_total _
             (fun i => rotation_matrix (theta * PI / 180 * IZR i / IZR depth))).
  - simpl. destruct c; reflexivity.
  - intros i _. unfold py_div.
    destruct (Z.eqb_spec depth 0) as [E | _]; [contradiction |].
    simpl. unfold rotation_matrix.
    replace (theta * PI / 180 / IZR depth * IZR i)%R
      with (theta * PI / 180 * IZR i / IZR depth)%R.
    + reflexivity.
    + unfold Rdiv. ring.
Qed.

(** C2, as the code has it: the claim holds for every depth D >= 1.
    For every angle theta (in degrees) and depth D >= 1, the Rotation
    constructor returns a stack of D+1 matrices where matrix[i] is the
    rotation matrix of the angle theta_rad * i / D; matrix[0] is the
    identity and matrix[D] is the rotation matrix of theta_rad. (Real
    arithmetic stands for the floats.) *)
Theorem Rotation_interpolates (theta : R) (c : option (point R)) (D : Z) :
  1 <= D ->
  exists t,
    Rotation theta c D = Ok t /\
    center t = c /\
    len (trans_mat t) = D + 1 /\
    (forall i, 0 <= i <= D ->
       getitem (trans_mat t) i =
       Ok (rotation_matrix (theta * PI / 180 * IZR i / IZR D))) /\
    getitem (trans_mat t) 0 = Ok identity_matrix /\
    getitem (trans_mat t) D = Ok (rotation_matrix (theta * PI / 180)).
Proof.
  intros HD.
  eexists. split; [apply Rotation_stack; lia |]. simpl.
  assert (Hi : forall i, 0 <= i <= D ->
            getitem (map (fun i => rotation_matrix (theta * PI / 180 * IZR i / IZR D))
                         (range (D + 1))) i =
            Ok (rotation_matrix (theta * PI / 180 * IZR i / IZR D))).
  { intros i Hi. rewrite getitem_map_range by lia. reflexivity. }
  split; [reflexivity |].
  split.
  { unfold len. rewrite length_map. apply len_range. lia. }
  split; [exact Hi |].
  split.
  - rewrite Hi by lia. rewrite <- rotation_matrix_0. do 2 f_equal.
    unfold Rdiv. ring.
  - rewrite Hi by lia. do 2 f_equal. field.
    apply not_0_IZR. lia.
Qed.

Lemma Rotation_interpolates_witness :
  exists t,
    Rotation 90%R None 2 = Ok t /\
    center t = None /\
    len (trans_mat t) = 2 + 1 /\
    (forall i, 0 <= i <= 2 ->
       getitem (trans_mat t) i =
       Ok (rotation_matrix (90 * PI / 180 * IZR i / IZR 2))) /\
    getitem (trans_mat t) 0 = Ok identity_matrix /\
    getitem (trans_mat t) 2 = Ok (rotation_matrix (90 * PI / 180)).
Proof. apply (Rotation_interpolates 90%R None 2). lia. Defined.

(** At depth 0 the constructor divides by zero: no stack is produced. *)
Lemma Rotation_depth_0_raises :
  Rotation (F := R) 90%R None 0 = Raise ZeroDivisionError.
Proof. reflexivity. Qed.

(** ** Dilation *)

Lemma fgtb_R_true (x y : R) : (y < x)%R -> fgtb x y = true.
Proof. intros Hlt. simpl. destruct (Rlt_dec y x); [reflexivity | contradiction]. Qed.

Lemma fgtb_R_false (x y : R) : (x <= y)%R -> fgtb x y = false.
Proof. intros Hle. simpl. destruct (Rlt_dec y x); [lra | reflexivity]. Qed.

(** The branch of the factors at most 1. *)
Lemma Dilation_stack_le (s : R) (depth : Z) :
  (s <= 1)%R -> depth <> 0 ->
  Dilation s depth =
  Ok {| trans_mat :=
          map (fun i => scaling_matrix (1 + (s - 1) * IZR i / IZR depth)%R)
              (range (depth + 1));
        center := None |}.
Proof.
  intros Hs Hd. unfold Dilation. rewrite (fgtb_R_false s (of_int 1)) by exact Hs.
  rewrite (mapM_total _
             (fun i => scaling_matrix (1 + (s - 1) * IZR i / IZR depth)%R)).
  - reflexivity.
  - intros i _. unfold py_div.
    destruct (Z.eqb_spec depth 0) as [E | _]; [contradiction |].
    simpl. unfold scaling_matrix. simpl.
    replace (1 - IZR i * (1 - s) / IZR depth)%R
      with (1 + (s - 1) * IZR i / IZR depth)%R.
    + reflexivity.
    + unfold Rdiv. ring.
Qed.

(** The branch of the factors above 1: the step is [scale_factor/depth], not
    [(scale_factor - 1)/depth]. *)
Lemma Dilation_stack_gt (s : R) (depth : Z) :
  (1 < s)%R -> depth <> 0 ->
  Dilation s depth =
  Ok {| trans_mat :=
          map (fun i => scaling_matrix (1 + IZR i * s / IZR depth)%R)
              (range (depth + 1));
        center := None |}.
Proof.
  intros Hs Hd. unfold Dilation. rewrite (fgtb_R_true s (of_int 1)) by exact Hs.
  rewrite (mapM_total _ (fun i => scaling_matrix (1 + IZR i * s / IZR depth)%R)).
  - reflexivity.
  - intros i _. unfold py_div.
    destruct (Z.eqb_spec depth 0) as [E | _]; [contradiction |].
    reflexivity.
Qed.

(** For a factor above 1 the last matrix scales by [1 + s]. *)
Lemma Dilation_above_one_last (s : R) (d : Z) :
  (1 < s)%R -> 1 <= d ->
  exists t, Dilation s d = Ok t /\
            getitem (trans_mat t) d = Ok (scaling_matrix (1 + s)%R).
Proof.
  intros Hs Hd. eexists. split; [apply Dilation_stack_gt; [exact Hs | lia] |].
  simpl. rewrite getitem_map_range by lia. do 2 f_equal.
  field. apply not_0_IZR. lia.
Qed.

(** C1, as the code has it by design: for every scale factor s <= 1 and
    depth d >= 1 the Dilation constructor returns a stack of d+1 diagonal
    matrices, without pivot, whose diagonal entry at index i is
    1 + (s - 1) * i / d: 1 at index 0, s at index d, and never further
    from s at a later index. (Real arithmetic stands for the floats.) *)
Theorem Dilation_interpolates (s : R) (d : Z) :
  (s <= 1)%R -> 1 <= d ->
  exists t,
    Dilation s d = Ok t /\
    len (trans_mat t) = d + 1 /\
    (forall i, 0 <= i <= d ->
       getitem (trans_mat t) i =
       Ok (scaling_matrix (1 + (s - 1) * IZR i / IZR d)%R)) /\
    getitem (trans_mat t) 0 = Ok (scaling_matrix 1%R) /\
    getitem (trans_mat t) d = Ok (scaling_matrix s) /\
    (forall i j, 0 <= i <= j -> j <= d ->
       (s <= 1 + (s - 1) * IZR j / IZR d <= 1 + (s - 1) * IZR i / IZR d)%R /\
       (1 + (s - 1) * IZR i / IZR d <= 1)%R).
Proof.
  intros Hs Hd.
  assert (HdR : (0 < IZR d)%R) by (apply IZR_lt; lia).
  eexists. split; [apply Dilation_stack_le; [exact Hs | lia] |]. simpl.
  split.
  { unfold len. rewrite length_map. apply len_range. lia. }
  split.
  { intros i Hi. rewrite getitem_map_range by lia. reflexivity. }
  split.
  { rewrite getitem_map_range by lia. do 2 f_equal. unfold Rdiv. ring. }
  split.
  { rewrite getitem_map_range by lia. do 2 f_equal. field. lra. }
  intros i j Hij Hj.
  assert (Hi0 : (0 <= IZR i)%R) by (apply IZR_le; lia).
  assert (HijR : (IZR i <= IZR j)%R) by (apply IZR_le; lia).
  assert (HjdR : (IZR j <= IZR d)%R) by (apply IZR_le; lia).
  assert (Hinv : (0 < / IZR d)%R) by (apply Rinv_0_lt_compat; exact HdR).
  set (u := (/ IZR d)%R) in *.
  assert (Hu : (IZR d * u = 1)%R) by (unfold u; field; lra).
  unfold Rdiv. fold u.
  assert (H1 : (IZR i * u <= IZR j * u)%R) by (apply Rmult_le_compat_r; lra).
  assert (H2 : (IZR j * u <= 1)%R).
  { rewrite <- Hu. apply Rmult_le_compat_r; lra. }
  assert (H3 : (0 <= IZR i * u)%R) by (apply Rmult_le_pos; lra).
  repeat split; nra.
Qed.

Lemma Dilation_interpolates_witness :
  exists t,
    Dilation (1 / 2)%R 2 = Ok t /\
    len (trans_mat t) = 2 + 1 /\
    (forall i, 0 <= i <= 2 ->
       getitem (trans_mat t) i =
       Ok (scaling_matrix (1 + (1 / 2 - 1) * IZR i / IZR 2)%R)) /\
    getitem (trans_mat t) 0 = Ok (scaling_matrix 1%R) /\
    getitem (trans_mat t) 2 = Ok (scaling_matrix (1 / 2)%R) /\
    (forall i j, 0 <= i <= j -> j <= 2 ->
       (1 / 2 <= 1 + (1 / 2 - 1) * IZR j / IZR 2
        <= 1 + (1 / 2 - 1) * IZR i / IZR 2)%R /\
       (1 + (1 / 2 - 1) * IZR i / IZR 2 <= 1)%R).
Proof. apply (Dilation_interpolates (1 / 2)%R 2); [lra | lia]. Defined.

(** The claim fails as stated: the factor 2 at depth 2 ends at the factor 3,
    and at depth 0 the constructor divides by zero. *)
Lemma Dilation_claim_fails :
  (exists t, Dilation 2%R 2 = Ok t /\
             getitem (trans_mat t) 2 = Ok (scaling_matrix 3%R) /\
             getitem (trans_mat t) 2 <> Ok (scaling_matrix 2%R)) /\
  Dilation (1 / 2)%R 0 = Raise ZeroDivisionError.
Proof.
  split.
  - destruct (Dilation_above_one_last 2%R 2) as [t [Ht Hlast]]; [lra | lia |].
    exists t. split; [exact Ht |].
    replace (1 + 2)%R with 3%R in Hlast by ring.
    split; [exact Hlast |].
    rewrite Hlast. unfold scaling_matrix. intros [= E]. lra.
  - unfold Dilation. rewrite fgtb_R_false by (simpl; lra). reflexivity.
Qed.

(** The same run on the floats of the machine. *)
Example Dilation_2_2_float :
  Dilation (float_of_Z 2) 2 =
  Ok {| trans_mat := [scaling_matrix (float_of_Z 1); scaling_matrix (float_of_Z 2);
                      scaling_matrix (float_of_Z 3)];
        center := None |}.
Proof. vm_compute. reflexivity. Qed.

(** ** Regular polygons *)

Lemma dist_polar (c : point R) (r phi : R) : dist (polar c r phi) c = Rabs r.
Proof.
  unfold dist, polar. simpl.
  replace (Rsqr (r * cos phi + fst c - fst c) + Rsqr (r * sin phi + snd c - snd c))%R
    with (Rsqr r * (Rsqr (sin phi) + Rsqr (cos phi)))%R by (unfold Rsqr; ring).
  rewrite sin2_cos2, Rmult_1_r. apply sqrt_Rsqr_abs.
Qed.

Lemma n_Sided_Polygon_points (N : Z) (r : R) (c : point R) (a : R) :
  1 <= N ->
  exists c',
    n_Sided_Polygon N r c a =
    Ok {| points := map (fun n => polar c r (vertex_angle N a n)) (range N);
          shape_center := c' |}.
Proof.
  intros HN. unfold n_Sided_Polygon.
  rewrite (mapM_total _ (fun n => polar c r (vertex_angle N a n))).
  - unfold bind at 1. unfold mk_Polygon, find_center, py_div.
    assert (Hlen : len (map (fun n => polar c r (vertex_angle N a n)) (range N)) = N).
    { unfold len. rewrite length_map. apply len_range. lia. }
    rewrite Hlen.
    destruct (Z.eqb_spec N 0) as [E | _]; [lia |].
    eexists. reflexivity.
  - intros n _. unfold py_div.
    destruct (Z.eqb_spec N 0) as [E | _]; [lia |].
    reflexivity.
Qed.

(** C5: for every N >= 3, radius r, center c and start angle a, the
    generator returns a polygon of exactly N points; point n is at the
    angle 2*pi*n/N + a about c, at the distance |r| from c (that is r, for a
    radius r >= 0), and the angles of consecutive vertices differ by 2*pi/N.
    (Real arithmetic stands for the floats.) *)
Theorem n_Sided_Polygon_regular (N : Z) (r : R) (c : point R) (a : R) :
  3 <= N ->
  exists poly,
    n_Sided_Polygon N r c a = Ok poly /\
    len (points poly) = N /\
    (forall n, 0 <= n < N ->
       getitem (points poly) n = Ok (polar c r (vertex_angle N a n))) /\
    (forall n p, 0 <= n < N -> getitem (points poly) n = Ok p ->
       dist p c = Rabs r /\ ((0 <= r)%R -> dist p c = r)) /\
    (forall n, (vertex_angle N a (n + 1) - vertex_angle N a n = 2 * PI / IZR N)%R).
Proof.
  intros HN.
  destruct (n_Sided_Polygon_points N r c a) as [c' Hpoly]; [lia |].
  eexists. split; [exact Hpoly |]. simpl.
  assert (Hget : forall n, 0 <= n < N ->
            getitem (map (fun n => polar c r (vertex_angle N a n)) (range N)) n =
            Ok (polar c r (vertex_angle N a n))).
  { intros n Hn. rewrite getitem_map_range by lia. reflexivity. }
  split.
  { unfold len. rewrite length_map. apply len_range. lia. }
  split; [exact Hget |].
  split.
  - intros n p Hn Hp. rewrite Hget in Hp by exact Hn.
    injection Hp as <-. rewrite dist_polar.
    split; [reflexivity |]. intros Hr. apply Rabs_right. lra.
  - intros n. unfold vertex_angle. rewrite plus_IZR. field.
    apply not_0_IZR. lia.
Qed.

Lemma n_Sided_Polygon_regular_witness :
  exists poly,
    n_Sided_Polygon 4 1%R (0%R, 0%R) 0%R = Ok poly /\
    len (points poly) = 4 /\
    (forall n, 0 <= n < 4 ->
       getitem (points poly) n = Ok (polar (0%R, 0%R) 1 (vertex_angle 4 0 n))) /\
    (forall n p, 0 <= n < 4 -> getitem (points poly) n = Ok p ->
       dist p (0%R, 0%R) = Rabs 1 /\ ((0 <= 1)%R -> dist p (0%R, 0%R) = 1%R)) /\
    (forall n, (vertex_angle 4 0 (n + 1) - vertex_angle 4 0 n = 2 * PI / IZR 4)%R).
Proof. apply (n_Sided_Polygon_regular 4 1%R (0%R, 0%R) 0%R). lia. Defined.

(** ** The order of the transformations *)

Section Order.
Context {F : Type} `{Arith F}.
Variable store : addr -> Transformation F.

Lemma contains_In (l : list addr) (t : addr) : contains l t = true <-> In t l.
Proof.
  unfold contains. rewrite existsb_exists. split.
  - intros [x [Hx E]]. apply Nat.eqb_eq in E. subst x. exact Hx.
  - intros Hin. exists t. split; [exact Hin | apply Nat.eqb_refl].
Qed.

(** An object of the list is in [center_transformations] exactly when it has
    no pivot: membership is by identity, and an object has one [center]. *)
Lemma contains_center_transformations (ts : list addr) (t : addr) :
  In t ts ->
  contains (filter (center_relative store) ts) t = center_relative store t.
Proof.
  intros Hin. destruct (center_relative store t) eqn:E.
  - apply contains_In. apply filter_In. split; assumption.
  - destruct (contains (filter (center_relative store) ts) t) eqn:C; [| reflexivity].
    apply contains_In in C. apply filter_In in C. destruct C as [_ C]. congruence.
Qed.

Lemma reorder_stable_partition (ts : list addr) :
  reorder store ts = stable_partition (center_relative store) ts.
Proof.
  unfold reorder, stable_partition. fold (center_relative store).
  f_equal. apply filter_ext_in. intros t Hin.
  rewrite contains_center_transformations by exact Hin. reflexivity.
Qed.

Lemma Dilation_center (s : F) (d : Z) (t : Transformation F) :
  Dilation s d = Ok t -> center t = None.
Proof.
  unfold Dilation. destruct (fgtb s (of_int 1)).
  - destruct (mapM _ (range (d + 1))); simpl; [| discriminate].
    intros [= <-]. reflexivity.
  - destruct (mapM _ (range (d + 1))); simpl; [| discriminate].
    intros [= <-]. reflexivity.
Qed.

(** In the executed order nothing with a pivot comes before something
    without. *)
Lemma reorder_split (ts : list addr) (a b : addr) :
  center_relative store a = true -> center_relative store b = false ->
  In a ts -> In b ts ->
  exists l1 l2,
    reorder store ts = l1 ++ l2 /\
    In a l1 /\ ~ In b l1 /\ In b l2 /\ ~ In a l2.
Proof.
  intros Ha Hb Hina Hinb.
  exists (filter (center_relative store) ts),
         (filter (fun t => negb (center_relative store t)) ts).
  split; [apply reorder_stable_partition |].
  repeat split.
  - apply filter_In. split; assumption.
  - intros Hin. apply filter_In in Hin. destruct Hin as [_ Hin]. congruence.
  - apply filter_In. split; [assumption |]. rewrite Hb. reflexivity.
  - intros Hin. apply filter_In in Hin. destruct Hin as [_ Hin].
    rewrite Ha in Hin. discriminate.
Qed.

End Order.

(** ** A full turn about the center of the shape *)

Lemma np_dot_stack_nonempty {F : Type} `{Arith F} (ms : list (mat2 F)) (fr : frame F) :
  ms <> [] -> np_dot_stack ms fr = Ok (map (fun m => np_dot m fr) ms).
Proof. destruct ms; [contradiction | reflexivity]. Qed.

Lemma full_turn_fixes (c p : point R) :
  padd (mat_apply (rotation_matrix (2 * PI)) (psub p c)) c = p.
Proof.
  destruct p as [x y], c as [cx cy].
  unfold padd, psub, mat_apply, rotation_matrix. simpl.
  rewrite cos_2PI, sin_2PI. f_equal; ring.
Qed.

Lemma full_turn_frame (c : point R) (pts : list (point R)) :
  map (fun p => padd p c)
      (np_dot (rotation_matrix (2 * PI)) (map (fun p => psub p c) pts)) = pts.
Proof.
  unfold np_dot. rewrite !map_map.
  rewrite <- (map_id pts) at 2. apply map_ext. intros p. apply full_turn_fixes.
Qed.

(** C6: a Rotation of 360 degrees without pivot and of depth D >= 1, alone
    in the transformation list of a shape, is rendered by the compositor to
    a stack of D+1 point sets whose last one, at the index D, is the
    original point list of the shape. (In real arithmetic the points are
    equal; the floats of the code are within rounding of them.) *)
Theorem full_turn_round_trip (D : Z) :
  1 <= D ->
  exists t,
    Rotation 360%R None D = Ok t /\
    forall (store : addr -> Transformation R) (a : addr) (shape : Polygon R),
      store a = t ->
      exists new_shape,
        render_shape store shape [a] = Ok new_shape /\
        len new_shape = D + 1 /\
        getitem new_shape D = Ok (points shape).
Proof.
  intros HD.
  set (ms := map (fun i => rotation_matrix (360 * PI / 180 * IZR i / IZR D))
                 (range (D + 1))).
  exists {| trans_mat := ms; center := None |}.
  split; [apply Rotation_stack; lia |].
  intros store a shape Ha.
  assert (Hlen : length ms = Z.to_nat (D + 1)).
  { unfold ms. rewrite length_map. apply range_length. }
  assert (Hms : ms <> []).
  { intros E. rewrite E in Hlen. simpl in Hlen. lia. }
  unfold render_shape. rewrite reorder_stable_partition.
  unfold stable_partition, center_relative. cbn [filter]. rewrite Ha.
  cbn [center negb app apply_all]. rewrite Ha.
  unfold apply_first. cbn [center trans_mat].
  rewrite (np_dot_stack_nonempty ms _ Hms).
  cbn [bind foldM].
  eexists. split; [reflexivity |].
  split.
  - unfold len. rewrite !length_map, Hlen. lia.
  - unfold ms. rewrite !map_map. rewrite getitem_map_range by lia.
    f_equal.
    replace (360 * PI / 180 * IZR D / IZR D)%R with (2 * PI)%R.
    + apply full_turn_frame.
    + field. apply not_0_IZR. lia.
Qed.

Lemma full_turn_round_trip_witness :
  exists t,
    Rotation 360%R None 2 = Ok t /\
    forall (store : addr -> Transformation R) (a : addr) (shape : Polygon R),
      store a = t ->
      exists new_shape,
        render_shape store shape [a] = Ok new_shape /\
        len new_shape = 2 + 1 /\
        getitem new_shape 2 = Ok (points shape).
Proof. apply (full_turn_round_trip 2). lia. Defined.

(** ** Loops *)

Lemma foldM_app {A S : Type} (f : S -> A -> result S) (l1 l2 : list A) (s : S) :
  foldM f (l1 ++ l2) s = (s1 <- foldM f l1 s ;; foldM f l2 s1).
Proof.
  revert s. induction l1 as [| a l1 IH]; intros s; simpl.
  - reflexivity.
  - destruct (f s a) as [s' |]; simpl; [apply IH | reflexivity].
Qed.

(** A relation that every step of a loop respects holds between the start
    and the end of the loop. *)
Lemma foldM_preorder {A S : Type} (R : S -> S -> Prop) (f : S -> A -> result S) :
  (forall s, R s s) ->
  (forall s1 s2 s3, R s1 s2 -> R s2 s3 -> R s1 s3) ->
  (forall s a s', f s a = Ok s' -> R s s') ->
  forall l s s', foldM f l s = Ok s' -> R s s'.
Proof.
  intros Hrefl Htrans Hstep. induction l as [| a l IH]; intros s s'; simpl.
  - intros [= <-]. apply Hrefl.
  - destruct (f s a) as [s1 |] eqn:E; simpl; [| discriminate].
    intros Hl. apply (Htrans s s1 s'); [apply (Hstep s a); exact E | apply IH; exact Hl].
Qed.

(** A property that every step of a loop keeps holds at its end. *)
Lemma foldM_invariant {A S : Type} (P : S -> Prop) (f : S -> A -> result S) :
  (forall s a s', P s -> f s a = Ok s' -> P s') ->
  forall l s s', P s -> foldM f l s = Ok s' -> P s'.
Proof.
  intros Hstep. induction l as [| a l IH]; intros s s' Hs; simpl.
  - intros [= <-]. exact Hs.
  - destruct (f s a) as [s1 |] eqn:E; simpl; [| discriminate].
    apply IH. apply (Hstep s a); assumption.
Qed.

(** ** Writes that only set pixels *)

Lemma covers_refl (img : image) : covers img img.
Proof. intros r c Hp. exact Hp. Qed.

Lemma covers_trans (a b c : image) : covers a b -> covers b c -> covers a c.
Proof. intros Hab Hbc r k Hp. apply Hbc, Hab, Hp. Qed.

Lemma covers_vol_refl (vol : volume) : covers_vol vol vol.
Proof. intros d r c Hp. exact Hp. Qed.

Lemma covers_vol_trans (a b c : volume) :
  covers_vol a b -> covers_vol b c -> covers_vol a c.
Proof. intros Hab Hbc d r k Hp. apply Hbc, Hab, Hp. Qed.

Lemma update_from_set (i lo hi : Z) (row : list bool) (c : nat) :
  nth c row false = true ->
  nth c (update_from i lo hi (fun _ => true) row) false = true.
Proof.
  revert i c. induction row as [| b row IH]; intros i c; simpl.
  - destruct c; discriminate.
  - destruct c as [| c]; simpl.
    + intros ->. destruct ((lo <=? i) && (i <? hi)); reflexivity.
    + apply IH.
Qed.

Lemma update_row_covers (g : list bool -> list bool) (img : image) (i : nat) :
  (forall row c, nth c row false = true -> nth c (g row) false = true) ->
  covers img (update_row i g img).
Proof.
  intros Hg. revert i. induction img as [| row img IH]; intros i r c; simpl.
  - destruct i; intros Hp; exact Hp.
  - destruct i as [| i]; destruct r as [| r]; unfold pixel; simpl.
    + apply Hg.
    + intros Hp. exact Hp.
    + intros Hp. exact Hp.
    + apply (IH i r c).
Qed.

Lemma set_slice_covers (img img' : image) (r start stop : Z) :
  set_slice img r start stop = Ok img' -> covers img img'.
Proof.
  unfold set_slice. destruct (norm_index (len img) r) as [i |]; simpl; [| discriminate].
  intros [= <-]. apply update_row_covers. intros row c. apply update_from_set.
Qed.

Lemma set_pixel_covers (img img' : image) (r c : Z) :
  set_pixel img r c = Ok img' -> covers img img'.
Proof.
  unfold set_pixel. destruct (norm_index (len img) r) as [i |]; simpl; [| discriminate].
  destruct (getitem img i) as [row |]; simpl; [| discriminate].
  destruct (norm_index (len row) c) as [j |]; simpl; [| discriminate].
  intros [= <-]. apply update_row_covers. intros row' k. apply update_from_set.
Qed.

Lemma nth_list_set {A : Type} (l : list A) (i d : nat) (x dflt : A) :
  (i < length l)%nat ->
  nth d (list_set l i x) dflt = if Nat.eqb d i then x else nth d l dflt.
Proof.
  revert i d. induction l as [| a l IH]; intros i d Hi; simpl in *.
  - lia.
  - destruct i as [| i]; destruct d as [| d]; simpl; try reflexivity.
    apply IH. lia.
Qed.

Lemma getitem_nth {A : Type} (l : list A) (i : Z) (a dflt : A) :
  getitem l i = Ok a -> (Z.to_nat i < length l)%nat /\ nth (Z.to_nat i) l dflt = a.
Proof.
  unfold getitem. destruct (nth_error l (Z.to_nat i)) as [a' |] eqn:E; [| discriminate].
  intros [= <-]. split.
  - apply nth_error_Some. congruence.
  - apply nth_error_nth. exact E.
Qed.

Section Wires.
Context {F : Type} `{Arith F} `{Pixel F}.

Lemma wire_x_step_covers (p1 p2 : point F) (slope : F) (img img' : image) (x_step : Z) :
  wire_x_step p1 p2 slope img x_step = Ok img' -> covers img img'.
Proof.
  unfold wire_x_step. destruct (truth slope).
  - destruct (x_step_pixel p1 p2 slope x_step) as [[new_y new_x] |]; simpl;
      [| discriminate].
    apply set_slice_covers.
  - destruct (py_int (fneg (snd p1))) as [r |]; simpl; [| discriminate].
    destruct (py_int _) as [start |]; simpl; [| discriminate].
    destruct (py_int _) as [stop |]; simpl; [| discriminate].
    apply set_slice_covers.
Qed.

Lemma wire_edge_covers (img img' : image) (edge : point F * point F) :
  wire_edge img edge = Ok img' -> covers img img'.
Proof.
  unfold wire_edge. destruct edge as [p1 p2].
  destruct (fgtb (np_abs (slope_of p1 p2)) (of_int 1)).
  - destruct (py_int _) as [n |]; simpl; [| discriminate].
    apply (foldM_preorder covers); [apply covers_refl | apply covers_trans |].
    intros s y_step s'. destruct (truth (slope_of p1 p2)).
    + destruct (y_step_pixel p1 p2 (slope_of p1 p2) y_step) as [[new_y new_x] |];
        simpl; [| discriminate].
      apply set_pixel_covers.
    + intros [= <-]. apply covers_refl.
  - destruct (py_int _) as [n |]; simpl; [| discriminate].
    apply (foldM_preorder covers); [apply covers_refl | apply covers_trans |].
    intros s x_step s'. apply wire_x_step_covers.
Qed.

(** Drawing on an image keeps every pixel that was set. *)
Lemma render_points_as_wires_covers (points : list (point F)) (bounds : point F)
  (resolution : Z) (img img' : image) :
  render_points_as_wires points bounds resolution (Some img) = Ok img' ->
  covers img img'.
Proof.
  unfold render_points_as_wires. cbn [bind].
  destruct (pixel_points points bounds resolution) as [pts |]; simpl; [| discriminate].
  apply (foldM_preorder covers); [apply covers_refl | apply covers_trans |].
  intros s e s'. apply wire_edge_covers.
Qed.

Lemma draw_wires_covers (bounds : point F) (resolution : Z) (vol vol' : volume)
  (shape : stack F) :
  draw_wires bounds resolution vol shape = Ok vol' -> covers_vol vol vol'.
Proof.
  unfold draw_wires.
  apply (foldM_preorder covers_vol); [apply covers_vol_refl | apply covers_vol_trans |].
  intros fv i fv'.
  destruct (getitem shape i) as [pts |]; simpl; [| discriminate].
  destruct (getitem fv i) as [layer |] eqn:Elayer; simpl; [| discriminate].
  destruct (render_points_as_wires pts bounds resolution (Some layer)) as [img |] eqn:Eimg;
    simpl; [| discriminate].
  intros [= <-]. intros d r c. unfold voxel.
  destruct (getitem_nth fv i layer [] Elayer) as [Hlt Hnth].
  rewrite nth_list_set by exact Hlt.
  destruct (Nat.eqb_spec d (Z.to_nat i)) as [-> | _].
  - rewrite Hnth. apply (render_points_as_wires_covers _ _ _ _ _ Eimg).
  - intros Hp. exact Hp.
Qed.

Lemma assemble_fast_app (earlier later : list (stack F)) (bounds : point F)
  (resolution : Z) (vol : volume) :
  earlier <> [] ->
  assemble (earlier ++ later) bounds resolution true = Ok vol ->
  exists vol1,
    assemble earlier bounds resolution true = Ok vol1 /\
    foldM (draw_wires bounds resolution) later vol1 = Ok vol.
Proof.
  intros Hne. unfold assemble.
  destruct earlier as [| first rest]; [contradiction |].
  cbn [app getitem Z.to_nat nth_error bind].
  destruct (np_zeros resolution) as [layer |]; simpl; [| discriminate].
  change (first :: rest ++ later) with ((first :: rest) ++ later).
  destruct (draw_wires bounds resolution (repeat layer (length first)) first)
    as [v1 |]; simpl; [| discriminate].
  rewrite foldM_app.
  destruct (foldM (draw_wires bounds resolution) rest v1) as [vol1 |]; simpl;
    [| discriminate].
  intros Hl. exists vol1. split; [reflexivity | exact Hl].
Qed.

(** C8: wireframe rasterization only sets pixels: every pixel that is set
    in the image it is given is set in the image it returns; so in the fast
    mode of the volume assembly, where all shapes are drawn on one raster
    per depth index, everything drawn by the earlier shapes is still set
    after the later shapes are drawn. *)
Theorem wires_only_set_pixels :
  (forall (points : list (point F)) (bounds : point F) (resolution : Z)
          (img img' : image),
     render_points_as_wires points bounds resolution (Some img) = Ok img' ->
     forall r c, pixel img r c = true -> pixel img' r c = true) /\
  (forall (earlier later : list (stack F)) (bounds : point F) (resolution : Z)
          (vol : volume),
     earlier <> [] ->
     assemble (earlier ++ later) bounds resolution true = Ok vol ->
     exists vol1,
       assemble earlier bounds resolution true = Ok vol1 /\
       forall d r c, voxel vol1 d r c = true -> voxel vol d r c = true).
Proof.
  split.
  - intros points bounds resolution img img' Hw.
    apply (render_points_as_wires_covers _ _ _ _ _ Hw).
  - intros earlier later bounds resolution vol Hne Hvol.
    destruct (assemble_fast_app earlier later bounds resolution vol Hne Hvol)
      as [vol1 [H1 H2]].
    exists vol1. split; [exact H1 |].
    revert H2. apply (foldM_preorder covers_vol);
      [apply covers_vol_refl | apply covers_vol_trans |].
    intros s shape s'. apply draw_wires_covers.
Qed.

End Wires.

(** ** The size of the images *)

Lemma update_from_length (i lo hi : Z) (f : bool -> bool) (row : list bool) :
  length (update_from i lo hi f row) = length row.
Proof.
  revert i. induction row as [| b row IH]; intros i; simpl.
  - reflexivity.
  - f_equal. apply IH.
Qed.

Lemma update_slice_length (f : bool -> bool) (start stop : Z) (row : list bool) :
  length (update_slice f start stop row) = length row.
Proof. apply update_from_length. Qed.

Lemma update_row_square (n i : nat) (g : list bool -> list bool) (img : image) :
  (forall row, length (g row) = length row) ->
  square n img -> square n (update_row i g img).
Proof.
  intros Hg [Hlen Hrows]. split.
  - rewrite <- Hlen. clear Hlen Hrows. revert i.
    induction img as [| row img IH]; intros i; simpl.
    + destruct i; reflexivity.
    + destruct i; simpl; [reflexivity | f_equal; apply IH].
  - clear Hlen. revert i. induction Hrows as [| row img Hrow Himg IH]; intros i; simpl.
    + destruct i; constructor.
    + destruct i; constructor; try assumption.
      * rewrite Hg. exact Hrow.
      * apply IH.
Qed.

Lemma np_zeros_square (resolution : Z) (img : image) :
  np_zeros resolution = Ok img -> square (Z.to_nat resolution) img.
Proof.
  unfold np_zeros. destruct (resolution <? 0); [discriminate |].
  intros [= <-]. split.
  - apply repeat_length.
  - apply Forall_forall. intros row Hrow. apply repeat_spec in Hrow. subst row.
    apply repeat_length.
Qed.


Lemma toggle_left_square (n : nat) (img img' : image) (r stop : Z) :
  toggle_left img r stop = Ok img' -> square n img -> square n img'.
Proof.
  unfold toggle_left. destruct (norm_index (len img) r) as [i |]; simpl; [| discriminate].
  intros [= <-]. apply update_row_square. intros row. apply update_slice_length.
Qed.

Lemma zip_with_length {A B C : Type} (f : A -> B -> C) (l : list A) (l' : list B) :
  length l = length l' -> length (zip_with f l l') = length l.
Proof.
  revert l'. induction l as [| a l IH]; intros [| b l']; simpl; try discriminate.
  - reflexivity.
  - intros [= E]. f_equal. apply IH. exact E.
Qed.

Lemma nth_zip_with {A B C : Type} (f : A -> B -> C) (l : list A) (l' : list B)
  (i : nat) (d : A) (d' : B) (e : C) :
  length l = length l' -> f d d' = e ->
  nth i (zip_with f l l') e = f (nth i l d) (nth i l' d').
Proof.
  intros Hlen He. revert l' i Hlen.
  induction l as [| a l IH]; intros [| b l'] i; simpl; try discriminate.
  - intros _. destruct i; symmetry; exact He.
  - intros [= E]. destruct i as [| i]; [reflexivity | apply IH; exact E].
Qed.

Lemma square_row (n : nat) (img : image) (r : nat) :
  square n img -> length (nth r img []) = if (r <? n)%nat then n else 0%nat.
Proof.
  intros [Hlen Hrows].
  destruct (Nat.ltb_spec r n) as [Hlt | Hge].
  - rewrite Forall_forall in Hrows. apply Hrows. apply nth_In. lia.
  - rewrite nth_overflow by lia. reflexivity.
Qed.

Lemma or_image_square (n : nat) (a b : image) :
  square n a -> square n b -> square n (or_image a b).
Proof.
  intros [Ha Hra] [Hb Hrb]. unfold or_image. split.
  - rewrite zip_with_length; congruence.
  - assert (Hlen : length a = length b) by congruence. clear Ha Hb.
    revert b Hrb Hlen. induction Hra as [| row a Hrow Hra IH]; intros [| row' b] Hrb;
      simpl; try discriminate.
    + constructor.
    + intros [= E]. inversion Hrb as [| ? ? Hrow' Hrb']; subst.
      constructor; [| apply IH; assumption].
      rewrite zip_with_length; congruence.
Qed.

Lemma pixel_or_image (n : nat) (a b : image) (r c : nat) :
  square n a -> square n b ->
  pixel (or_image a b) r c = pixel a r c || pixel b r c.
Proof.
  intros Ha Hb. unfold pixel, or_image.
  rewrite (nth_zip_with (zip_with orb) a b r [] [] []);
    [| destruct Ha, Hb; congruence | reflexivity].
  apply nth_zip_with; [| reflexivity].
  rewrite (square_row n a r Ha), (square_row n b r Hb). reflexivity.
Qed.

(** ** Filled volumes *)

Lemma Forall_zip_with {A B C : Type} (P : A -> Prop) (Q : B -> Prop) (R : C -> Prop)
  (f : A -> B -> C) (l : list A) (l' : list B) :
  (forall a b, P a -> Q b -> R (f a b)) ->
  Forall P l -> Forall Q l' -> Forall R (zip_with f l l').
Proof.
  intros Hf Hl. revert l'. induction Hl as [| a l Ha Hl IH]; intros l' Hl'; simpl.
  - constructor.
  - destruct Hl' as [| b l' Hb Hl']; constructor; [apply Hf; assumption | apply IH; assumption].
Qed.

Lemma Forall_nth_in {A : Type} (P : A -> Prop) (l : list A) (d : nat) (dflt : A) :
  Forall P l -> (d < length l)%nat -> P (nth d l dflt).
Proof.
  intros Hl Hd. rewrite Forall_forall in Hl. apply Hl. apply nth_In. exact Hd.
Qed.

Lemma Forall_map_intro {A B : Type} (P : A -> Prop) (Q : B -> Prop) (g : A -> B)
  (l : list A) :
  (forall a, P a -> Q (g a)) -> Forall P l -> Forall Q (map g l).
Proof.
  intros Hg Hl. induction Hl as [| a l Ha Hl IH]; simpl; constructor; auto.
Qed.

Lemma nth_map_in {A B : Type} (g : A -> B) (l : list A) (d : nat) (da : A) (db : B) :
  (d < length l)%nat -> nth d (map g l) db = g (nth d l da).
Proof.
  intros Hd. rewrite (nth_indep _ db (g da)) by (rewrite length_map; exact Hd).
  apply map_nth.
Qed.

(** [np.logical_or] on a volume and the list of the images of one shape:
    wherever both have a layer, the layer of the result is their union. *)
Lemma np_logical_or_spec (n : nat) (fv vd fv1 : volume) :
  np_logical_or fv vd = Ok fv1 ->
  Forall (square n) fv -> Forall (square n) vd ->
  Forall (square n) fv1 /\
  (length fv <= length fv1)%nat /\
  forall d r c, (d < length fv)%nat -> (d < length vd)%nat ->
    voxel fv1 d r c = voxel fv d r c || voxel vd d r c.
Proof.
  unfold np_logical_or. intros Hor Hfv Hvd.
  destruct vd as [| v0 vd']; [discriminate |].
  destruct (Z.eqb_spec (len fv) (len (v0 :: vd'))) as [Elen | Nlen].
  - injection Hor as <-. unfold len in Elen. apply Nat2Z.inj in Elen.
    split; [apply (Forall_zip_with (square n) (square n)); auto using or_image_square |].
    split; [rewrite zip_with_length by exact Elen; lia |].
    intros d r c Hd Hd'. unfold voxel.
    rewrite (nth_zip_with or_image fv (v0 :: vd') d [] [] []); [| exact Elen | reflexivity].
    apply (pixel_or_image n); apply Forall_nth_in; assumption.
  - destruct (Z.eqb_spec (len (v0 :: vd')) 1) as [E1 | N1].
    + injection Hor as <-.
      assert (vd' = []) as ->.
      { unfold len in E1. simpl in E1. destruct vd'; [reflexivity | simpl in E1; lia]. }
      assert (Hv0 : square n v0) by (inversion Hvd; assumption).
      split.
      { apply (Forall_map_intro (square n) (square n) (fun a => or_image a v0) fv);
          [| exact Hfv].
        intros a Ha. apply or_image_square; assumption. }
      split; [rewrite length_map; lia |].
      intros d r c Hd Hd'. simpl in Hd'. assert (d = 0%nat) as -> by lia.
      unfold voxel. rewrite (nth_map_in _ fv 0 []) by exact Hd. simpl.
      apply (pixel_or_image n); [apply Forall_nth_in; assumption | exact Hv0].
    + destruct fv as [| a0 [| a1 fv']]; try discriminate.
      injection Hor as <-.
      assert (Ha0 : square n a0) by (inversion Hfv; assumption).
      split.
      { apply (Forall_map_intro (square n) (square n) (fun v => or_image a0 v)
                 (v0 :: vd')); [| exact Hvd].
        intros v Hv. apply or_image_square; assumption. }
      split; [simpl; lia |].
      intros d r c Hd Hd'. simpl in Hd. assert (d = 0%nat) as -> by lia.
      unfold voxel. simpl.
      apply (pixel_or_image n); [exact Ha0 | inversion Hvd; assumption].
Qed.

Section Filled.
Context {F : Type} `{Arith F} `{Pixel F}.

Lemma fill_edge_square (n : nat) (img img' : image) (edge : point F * point F) :
  fill_edge img edge = Ok img' -> square n img -> square n img'.
Proof.
  unfold fill_edge. destruct edge as [p1 p2].
  destruct (py_int _) as [k |]; simpl; [| discriminate].
  intros Hl Hsq. revert Hsq Hl. apply foldM_invariant.
  intros s y_step s' Hs. destruct (truth (slope_of p1 p2)).
  - destruct (y_step_pixel p1 p2 (slope_of p1 p2) y_step) as [[new_y new_x] |];
      simpl; [| discriminate].
    intros Ht. apply (toggle_left_square n _ _ _ _ Ht Hs).
  - intros [= <-]. exact Hs.
Qed.

Lemma fix_corner_square (n : nat) (img img' : image) (p : point F) :
  fix_corner img p = Ok img' -> square n img -> square n img'.
Proof.
  unfold fix_corner.
  destruct (py_int (fneg (snd p))) as [r |]; simpl; [| discriminate].
  destruct (get_pixel img r 0) as [[|] |]; simpl; [| | discriminate].
  - destruct (py_int (fst p)) as [stop |]; simpl; [| discriminate].
    intros Ht Hs. apply (toggle_left_square n _ _ _ _ Ht Hs).
  - intros [= <-] Hs. exact Hs.
Qed.

(** The filled image of a point list has the size of the resolution. *)
Lemma render_points_as_image_square (points : list (point F)) (bounds : point F)
  (resolution : Z) (img : image) :
  render_points_as_image points bounds resolution = Ok img ->
  square (Z.to_nat resolution) img.
Proof.
  unfold render_points_as_image.
  destruct (np_zeros resolution) as [img0 |] eqn:E0; simpl; [| discriminate].
  destruct (pixel_points points bounds resolution) as [pts |]; simpl; [| discriminate].
  destruct (foldM fill_edge (edges pts) img0) as [img1 |] eqn:E1; simpl; [| discriminate].
  intros E2.
  assert (Hsq0 : square (Z.to_nat resolution) img0) by (apply np_zeros_square; exact E0).
  assert (Hsq1 : square (Z.to_nat resolution) img1).
  { revert Hsq0 E1. apply foldM_invariant.
    intros s e s' Hs He. apply (fill_edge_square _ _ _ _ He Hs). }
  revert Hsq1 E2. apply foldM_invariant.
  intros s p s' Hs Hp. apply (fix_corner_square _ _ _ _ Hp Hs).
Qed.

Lemma mapM_Forall {A B : Type} (P : B -> Prop) (f : A -> result B) (l : list A)
  (bs : list B) :
  (forall a b, f a = Ok b -> P b) -> mapM f l = Ok bs -> Forall P bs.
Proof.
  intros Hf. revert bs. induction l as [| a l IH]; intros bs; simpl.
  - intros [= <-]. constructor.
  - destruct (f a) as [b |] eqn:E; simpl; [| discriminate].
    destruct (mapM f l) as [bs' |]; simpl; [| discriminate].
    intros [= <-]. constructor; [apply (Hf a); exact E | apply IH; reflexivity].
Qed.


End Filled.

Section FilledVolume.
Context {F : Type} `{Arith F} `{Pixel F}.
Variable polygon_at : addr -> Polygon F.
Variable transformation_at : addr -> Transformation F.




(** ** The cache of the rendered shapes *)

Lemma render_shapes_mapping (self other : Animation F) :
  shapes other = shapes self ->
  render_shapes polygon_at transformation_at other =
  render_shapes polygon_at transformation_at (unrendered (shapes self)).
Proof. intros E. unfold render_shapes. rewrite E. reflexivity. Qed.

Lemma render_volume_data_unrendered (self : Animation F) (bounds : point F)
  (resolution : Z) (fast : bool) :
  final_shapes self = None ->
  snd (render_volume_data polygon_at transformation_at self bounds resolution fast) =
  (rendered <- render_shapes polygon_at transformation_at (unrendered (shapes self)) ;;
   match final_shapes rendered with
   | Some fs => assemble fs bounds resolution fast
   | None => Raise IndexError
   end).
Proof.
  intros Efs. unfold render_volume_data. rewrite Efs.
  rewrite (render_shapes_mapping self self eq_refl).
  destruct (render_shapes _ _ _); reflexivity.
Qed.

(** With rendered shapes present the compositor is not run again: the
    result is assembled from them, and [self] is unchanged. *)
Lemma render_volume_data_cached (self : Animation F) (fs : list (stack F))
  (bounds : point F) (resolution : Z) (fast : bool) :
  final_shapes self = Some fs ->
  render_volume_data polygon_at transformation_at self bounds resolution fast =
  (self, assemble fs bounds resolution fast).
Proof. intros Efs. unfold render_volume_data. rewrite Efs. reflexivity. Qed.

(** C9, as the code has it: [render_volume_data] keeps the rendered shapes
    in [self.final_shapes] and renders them only when they are absent. As
    long as [final_shapes] is absent or was rendered from the current items
    of the dictionary, the call returns what the same call returns on a
    freshly constructed animation whose dictionary holds the same items in
    the same iteration order, and it leaves the animation in such a state,
    with the same items. The constructor gives such a state and [add_shape]
    before any rendering keeps it. *)
Theorem render_volume_data_cache (bounds : point F) (resolution : Z) (fast : bool) :
  (forall self other : Animation F,
     coherent polygon_at transformation_at self ->
     final_shapes other = None -> shapes other = shapes self ->
     snd (render_volume_data polygon_at transformation_at self bounds resolution fast) =
     snd (render_volume_data polygon_at transformation_at other bounds resolution fast) /\
     coherent polygon_at transformation_at
       (fst (render_volume_data polygon_at transformation_at self bounds resolution fast)) /\
     shapes (fst (render_volume_data polygon_at transformation_at self bounds
                    resolution fast)) = shapes self) /\
  (forall polygon transformations,
     coherent polygon_at transformation_at (mk_Animation polygon transformations)) /\
  (forall (self : Animation F) polygon transformations,
     final_shapes self = None ->
     coherent polygon_at transformation_at (add_shape self polygon transformations)).
Proof.
  split.
  { intros self other Hco Hnone Hsh.
    rewrite (render_volume_data_unrendered other) by exact Hnone. rewrite Hsh.
    unfold coherent in Hco.
    destruct (final_shapes self) as [fs |] eqn:Efs.
    - rewrite (render_volume_data_cached self fs) by exact Efs. cbn [fst snd].
      rewrite Hco. cbn [bind final_shapes].
      split; [reflexivity |]. split; [| reflexivity].
      unfold coherent. rewrite Efs. exact Hco.
    - rewrite (render_volume_data_unrendered self) by exact Efs.
      split; [reflexivity |].
      unfold render_volume_data. rewrite Efs.
      rewrite (render_shapes_mapping self self eq_refl).
      unfold render_shapes, unrendered. cbn [shapes].
      destruct (mapM _ (shapes self)) as [fs |] eqn:Em; cbn [bind fst].
      + split; [| reflexivity]. unfold coherent, render_shapes, unrendered.
        cbn [final_shapes shapes]. rewrite Em. reflexivity.
      + split; [| reflexivity]. unfold coherent. rewrite Efs. exact I. }
  split.
  { intros polygon transformations. exact I. }
  intros self polygon transformations Efs. unfold coherent, add_shape.
  cbn [final_shapes]. rewrite Efs. exact I.
Qed.

End FilledVolume.

(** ** Division faults *)

Lemma bind_no_division_fault {A B : Type} (c : result A) (k : A -> result B) :
  no_division_fault c -> (forall a, no_division_fault (k a)) ->
  no_division_fault (bind c k).
Proof.
  unfold no_division_fault. intros Hc Hk. destruct c as [a | e]; simpl.
  - apply Hk.
  - intros [= ->]. apply Hc. reflexivity.
Qed.

Lemma foldM_no_division_fault {A S : Type} (f : S -> A -> result S) (l : list A) :
  (forall s a, no_division_fault (f s a)) -> forall s, no_division_fault (foldM f l s).
Proof.
  intros Hf. induction l as [| a l IH]; intros s; simpl.
  - discriminate.
  - apply bind_no_division_fault; [apply Hf | exact IH].
Qed.

Lemma getitem_no_division_fault {A : Type} (l : list A) (i : Z) :
  no_division_fault (getitem l i).
Proof. unfold getitem. destruct (nth_error l (Z.to_nat i)); discriminate. Qed.

Lemma norm_index_no_division_fault (n i : Z) : no_division_fault (norm_index n i).
Proof.
  unfold norm_index. destruct ((0 <=? i) && (i <? n)); [discriminate |].
  destruct ((- n <=? i) && (i <? 0)); discriminate.
Qed.

Lemma toggle_left_no_division_fault (img : image) (r stop : Z) :
  no_division_fault (toggle_left img r stop).
Proof.
  unfold toggle_left.
  apply bind_no_division_fault; [apply norm_index_no_division_fault |].
  intros i. discriminate.
Qed.

Lemma get_pixel_no_division_fault (img : image) (r c : Z) :
  no_division_fault (get_pixel img r c).
Proof.
  unfold get_pixel.
  apply bind_no_division_fault; [apply norm_index_no_division_fault | intros i].
  apply bind_no_division_fault; [apply getitem_no_division_fault | intros row].
  apply bind_no_division_fault; [apply norm_index_no_division_fault | intros j].
  apply getitem_no_division_fault.
Qed.

Section DivisionFaults.
Context {F : Type} `{Arith F} `{Pixel F}.

(** [int(x)] raises a ValueError or an OverflowError, nothing else. *)
Hypothesis py_int_no_division_fault : forall x : F, no_division_fault (py_int x).

Lemma y_step_pixel_no_division_fault (p1 p2 : point F) (slope : F) (y_step : Z) :
  no_division_fault (y_step_pixel p1 p2 slope y_step).
Proof.
  unfold y_step_pixel. destruct (fgtb (snd p2) (snd p1));
    (apply bind_no_division_fault; [apply py_int_no_division_fault | intros new_y];
     apply bind_no_division_fault; [apply py_int_no_division_fault | intros new_x];
     discriminate).
Qed.

(** The walk along an edge never ends in a division fault, whatever the
    slope. *)
Lemma fill_edge_no_division_fault (img : image) (edge : point F * point F) :
  no_division_fault (fill_edge img edge).
Proof.
  unfold fill_edge. destruct edge as [p1 p2].
  apply bind_no_division_fault; [apply py_int_no_division_fault | intros n].
  apply foldM_no_division_fault. intros s y_step.
  destruct (truth (slope_of p1 p2)); [| discriminate].
  apply bind_no_division_fault; [apply y_step_pixel_no_division_fault |].
  intros [new_y new_x]. apply toggle_left_no_division_fault.
Qed.

Lemma fix_corner_no_division_fault (img : image) (p : point F) :
  no_division_fault (fix_corner img p).
Proof.
  unfold fix_corner.
  apply bind_no_division_fault; [apply py_int_no_division_fault | intros r].
  apply bind_no_division_fault; [apply get_pixel_no_division_fault | intros b].
  destruct b; [| discriminate].
  apply bind_no_division_fault; [apply py_int_no_division_fault | intros stop].
  apply toggle_left_no_division_fault.
Qed.

(** The only division fault of the filled mode is the step size of a
    resolution 0. *)
Lemma render_points_as_image_division_fault (points : list (point F))
  (bounds : point F) (resolution : Z) :
  render_points_as_image points bounds resolution = Raise ZeroDivisionError <->
  resolution = 0.
Proof.
  unfold render_points_as_image, pixel_points, py_div. split.
  - intros Hr. destruct (Z.eqb_spec resolution 0) as [E | N]; [exact E | exfalso].
    revert Hr. apply bind_no_division_fault.
    { unfold np_zeros. destruct (resolution <? 0); discriminate. }
    intros img0. apply bind_no_division_fault.
    { cbn [bind]. apply bind_no_division_fault;
        [apply getitem_no_division_fault | discriminate]. }
    intros pts. apply bind_no_division_fault.
    { apply foldM_no_division_fault. intros s e. apply fill_edge_no_division_fault. }
    intros img1. apply foldM_no_division_fault. intros s p.
    apply fix_corner_no_division_fault.
  - intros ->. reflexivity.
Qed.

End DivisionFaults.

(** *** On the floats of the machine *)

Lemma float_int_no_division_fault (x : float) : no_division_fault (float_int x).
Proof. unfold float_int. destruct (Prim2SF x); discriminate. Qed.

(** A float that tests equal to zero is a zero. *)
Lemma float_zero_spec (x : float) :
  PrimFloat.eqb x PrimFloat.zero = true -> exists s, Prim2SF x = S754_zero s.
Proof.
  rewrite eqb_spec. change (Prim2SF PrimFloat.zero) with (S754_zero false).
  destruct (Prim2SF x) as [s | s | | s m e]; simpl.
  - intros _. exists s. reflexivity.
  - destruct s; discriminate.
  - discriminate.
  - destruct s; discriminate.
Qed.

(** A division by a float zero is an infinity or a NaN. *)
Lemma div_zero_undefined (x y : float) :
  PrimFloat.eqb y PrimFloat.zero = true -> undefined_slope (PrimFloat.div x y).
Proof.
  intros Hy. destruct (float_zero_spec y Hy) as [s Es].
  unfold undefined_slope. rewrite div_spec, Es.
  destruct (Prim2SF x); exact I.
Qed.

(** Adding or subtracting a float zero does not change the integer that
    [int] returns. *)
Lemma float_int_add_zero (x z : float) (s : bool) :
  Prim2SF z = S754_zero s ->
  float_int (PrimFloat.add x z) = float_int x /\
  float_int (PrimFloat.sub x z) = float_int x.
Proof.
  intros Ez. unfold float_int. rewrite add_spec, sub_spec, Ez.
  destruct (Prim2SF x) as [sx | sx | | sx m e]; simpl.
  - destruct sx, s; split; reflexivity.
  - split; reflexivity.
  - split; reflexivity.
  - split; reflexivity.
Qed.

(** A number divided by an infinity is a zero. *)
Lemma div_infinity_zero (k slope : float) (s : bool) :
  is_number k -> Prim2SF slope = S754_infinity s ->
  exists s', Prim2SF (PrimFloat.div k slope) = S754_zero s'.
Proof.
  unfold is_number. intros Hk Es. rewrite div_spec, Es.
  destruct (Prim2SF k) as [sk | sk | | sk m e]; try contradiction; simpl; eauto.
Qed.

(** C4: for every point list whose pixel points have a vertical edge (two
    consecutive points with a zero difference of x), the filled mode does
    not raise a division fault. The slope of the edge is an infinity or a
    NaN, not an exception; the walk along the edge never ends in a division
    fault; on an infinite slope every step keeps the x of the first point;
    and the whole rasterization does not end in a division fault. *)
Theorem vertical_edge_no_division_fault (points : list (point float))
  (bounds : point float) (resolution : Z) (pts : list (point float))
  (p1 p2 : point float) :
  pixel_points points bounds resolution = Ok pts ->
  In (p1, p2) (edges pts) ->
  PrimFloat.eqb (fsub (fst p2) (fst p1)) PrimFloat.zero = true ->
  undefined_slope (slope_of p1 p2) /\
  (forall img, no_division_fault (fill_edge img (p1, p2))) /\
  (forall s y_step,
     Prim2SF (slope_of p1 p2) = S754_infinity s -> is_number (float_of_Z y_step) ->
     y_step_pixel p1 p2 (slope_of p1 p2) y_step =
     if fgtb (snd p2) (snd p1) then
       new_y <- py_int (fadd (snd p1) (of_int y_step)) ;;
       new_x <- py_int (fst p1) ;;
       Ok (new_y, new_x)
     else
       new_y <- py_int (fsub (snd p1) (of_int y_step)) ;;
       new_x <- py_int (fst p1) ;;
       Ok (new_y, new_x)) /\
  no_division_fault (render_points_as_image points bounds resolution).
Proof.
  intros Hpts Hin Hdx.
  split; [apply div_zero_undefined; exact Hdx |].
  split; [intros img; apply fill_edge_no_division_fault;
          exact float_int_no_division_fault |].
  split.
  - intros s y_step Hs Hk.
    destruct (div_infinity_zero (float_of_Z y_step) (slope_of p1 p2) s Hk Hs)
      as [s' Ez].
    destruct (float_int_add_zero (fst p1)
                (PrimFloat.div (float_of_Z y_step) (slope_of p1 p2)) s' Ez)
      as [Hadd Hsub].
    unfold y_step_pixel. cbn [py_int Pixel_float fadd fsub fdiv of_int Arith_float].
    rewrite Hadd, Hsub. reflexivity.
  - intros Hr.
    apply (@render_points_as_image_division_fault float Arith_float Pixel_float
             float_int_no_division_fault) in Hr.
    subst resolution. unfold pixel_points, py_div in Hpts. discriminate.
Qed.

Lemma vertical_edge_no_division_fault_witness :
  undefined_slope (slope_of (flt 3, flt 7) (flt 3, flt 3)) /\
  no_division_fault (render_points_as_image big_square example_bounds 10).
Proof.
  destruct (vertical_edge_no_division_fault big_square example_bounds 10
              (value [] (pixel_points big_square example_bounds 10))
              (flt 3, flt 7) (flt 3, flt 3)) as [Hslope [_ [_ Hrun]]].
  - vm_compute. reflexivity.
  - vm_compute. right. left. reflexivity.
  - vm_compute. reflexivity.
  - split; [exact Hslope | exact Hrun].
Defined.

(** The square, whose right and left edges are vertical, is filled: the
    rasterization returns, with the pixels between the edges set. *)
Example big_square_filled :
  exists img,
    render_points_as_image big_square example_bounds 10 = Ok img /\
    pixel img 5 3 = true /\ pixel img 5 6 = true /\
    pixel img 5 2 = false /\ pixel img 5 7 = false.
Proof. eexists. vm_compute. repeat split. Qed.

(** ** Runs of the examples *)


Lemma wires_only_set_pixels_witness :
  exists vol1,
    assemble [[big_square; big_square]] example_bounds 10 true = Ok vol1 /\
    forall d r c,
      voxel vol1 d r c = true ->
      voxel (value [] (assemble ([[big_square; big_square]] ++
                                 [[small_square; small_square]])
                                example_bounds 10 true)) d r c = true.
Proof.
  apply (proj2 (@wires_only_set_pixels float _ _)
               [[big_square; big_square]] [[small_square; small_square]]
               example_bounds 10).
  - discriminate.
  - vm_compute. reflexivity.
Defined.

Lemma render_volume_data_cache_witness :
  final_shapes one_square_rendered = Some [[big_square; big_square]] /\
  snd (render_volume_data example_polygon_at example_store one_square_rendered
         example_bounds 10 false) =
  snd (render_volume_data example_polygon_at example_store
         (mk_Animation 0%nat [1%nat]) example_bounds 10 false).
Proof.
  split; [vm_compute; reflexivity |].
  apply (proj1 (render_volume_data_cache example_polygon_at example_store
                  example_bounds 10 false)
               one_square_rendered (mk_Animation 0%nat [1%nat])).
  - vm_compute. reflexivity.
  - reflexivity.
  - reflexivity.
Defined.

(** The order in which the dictionary is iterated is part of what the
    result depends on: the first shape gives the depth of the volume, so the
    same two items give IndexError in one order and a volume in the
    other. *)
Example render_volume_data_order_matters :
  (forall polygon,
     dict_get [(0%nat, [0%nat]); (1%nat, [1%nat])] polygon =
     dict_get [(1%nat, [1%nat]); (0%nat, [0%nat])] polygon) /\
  snd (render_volume_data example_polygon_at depth_store
         (unrendered [(0%nat, [0%nat]); (1%nat, [1%nat])]) example_bounds 10 true) =
  Raise IndexError /\
  exists vol,
    snd (render_volume_data example_polygon_at depth_store
           (unrendered [(1%nat, [1%nat]); (0%nat, [0%nat])]) example_bounds 10 true) =
    Ok vol.
Proof.
  split; [| split].
  - intros [| [| k]]; reflexivity.
  - vm_compute. reflexivity.
  - eexists. vm_compute. reflexivity.
Qed.

(** The claim fails as stated: after a first rendering, [add_shape] leaves
    the rendered shapes as they were, and the next call returns the volume
    of the old mapping, not the one of an animation built with the current
    mapping. *)
Lemma render_volume_data_stale_cache :
  shapes late_two_squares = shapes two_squares /\
  final_shapes two_squares = None /\
  snd (render_volume_data example_polygon_at example_store late_two_squares
         example_bounds 10 true) <>
  snd (render_volume_data example_polygon_at example_store two_squares
         example_bounds 10 true) /\
  snd (render_volume_data example_polygon_at example_store late_two_squares
         example_bounds 10 true) =
  snd (render_volume_data example_polygon_at example_store one_square
         example_bounds 10 true).
Proof.
  split; [reflexivity |]. split; [reflexivity |]. split.
  - intros E.
    apply (f_equal (fun r => voxel (value [] r) 0 1 6)) in E.
    vm_compute in E. discriminate.
  - vm_compute. reflexivity.
Qed.

(* ================================================================= *)
(** * More properties of the code *)

(** ** Polygons *)

Lemma mk_Polygon_returns {F : Type} `{Arith F} (pts : list (point F)) :
  pts <> [] ->
  exists ctr, mk_Polygon pts = Ok {| points := pts; shape_center := ctr |}.
Proof.
  intros Hne. unfold mk_Polygon, find_center, py_div.
  destruct (Z.eqb_spec (len pts) 0) as [E | _].
  - destruct pts; [contradiction | unfold len in E; simpl in E; lia].
  - eexists. reflexivity.
Qed.

Lemma n_Sided_Polygon_returns {F : Type} `{Arith F} `{Trig F} (N : Z) (radius : F)
  (c : point F) (angle : F) :
  1 <= N ->
  exists pts ctr,
    n_Sided_Polygon N radius c angle = Ok {| points := pts; shape_center := ctr |} /\
    len pts = N.
Proof.
  intros HN. unfold n_Sided_Polygon.
  set (vertex := fun n : Z =>
         (fadd (fmul radius
                  (np_cos (fadd (fdiv (fmul (fmul (of_int 2) pi) (of_int n)) (of_int N))
                                angle)))
               (fst c),
          fadd (fmul radius
                  (np_sin (fadd (fdiv (fmul (fmul (of_int 2) pi) (of_int n)) (of_int N))
                                angle)))
               (snd c))).
  rewrite (mapM_total _ vertex).
  - assert (Hlen : len (map vertex (range N)) = N).
    { unfold len. rewrite length_map. apply len_range. lia. }
    destruct (mk_Polygon_returns (map vertex (range N))) as [ctr Hctr].
    { intros E. rewrite E in Hlen. unfold len in Hlen. simpl in Hlen. lia. }
    cbn [bind]. rewrite Hctr. eexists. eexists. split; [reflexivity | exact Hlen].
  - intros n _. unfold py_div.
    destruct (Z.eqb_spec N 0) as [E | _]; [lia |]. reflexivity.
Qed.

(** X1: a polygon cannot be built without points: [Polygon([])] raises
    ZeroDivisionError (the centroid is 0/0), and the regular polygon
    constructor raises it exactly when N <= 0; for N >= 1 it returns a
    polygon of N points. *)
Theorem polygon_needs_points {F : Type} `{Arith F} `{Trig F} (N : Z) (radius : F)
  (c : point F) (angle : F) :
  mk_Polygon (F := F) [] = Raise ZeroDivisionError /\
  (forall pts, pts <> [] -> exists poly, mk_Polygon (F := F) pts = Ok poly /\ points poly = pts) /\
  (n_Sided_Polygon N radius c angle = Raise ZeroDivisionError <-> N <= 0) /\
  (1 <= N -> exists poly, n_Sided_Polygon N radius c angle = Ok poly /\
                          len (points poly) = N).
Proof.
  split; [reflexivity |].
  split.
  { intros pts Hne. destruct (mk_Polygon_returns pts Hne) as [ctr Hctr].
    eexists. split; [exact Hctr | reflexivity]. }
  split.
  - split.
    + intros Hr. destruct (Z_le_gt_dec N 0) as [Hle | Hgt]; [exact Hle | exfalso].
      destruct (n_Sided_Polygon_returns N radius c angle) as [pts [ctr [E _]]]; [lia |].
      rewrite E in Hr. discriminate.
    + intros HN. unfold n_Sided_Polygon, range.
      replace (Z.to_nat N) with 0%nat by lia. reflexivity.
  - intros HN.
    destruct (n_Sided_Polygon_returns N radius c angle HN) as [pts [ctr [E Hlen]]].
    eexists. split; [exact E | exact Hlen].
Qed.

Lemma polygon_needs_points_witness :
  exists poly, n_Sided_Polygon 3 1%R (0%R, 0%R) 0%R = Ok poly /\ len (points poly) = 3.
Proof.
  apply (proj2 (proj2 (proj2 (polygon_needs_points 3 1%R (0%R, 0%R) 0%R)))). lia.
Defined.

(** *** Centroids, over the reals *)

Lemma Rsum_app (l l' : list R) : Rsum (l ++ l') = (Rsum l + Rsum l')%R.
Proof.
  induction l as [| x l IH]; simpl.
  - ring.
  - rewrite IH. ring.
Qed.

Lemma fold_left_padd (pts : list (point R)) (acc : point R) :
  fold_left padd pts acc =
  ((fst acc + Rsum (map fst pts))%R, (snd acc + Rsum (map snd pts))%R).
Proof.
  revert acc. induction pts as [| p pts IH]; intros [ax ay]; simpl.
  - f_equal; ring.
  - rewrite IH. unfold padd. simpl. f_equal; ring.
Qed.

(** The centroid that [find_center] computes is the mean of the points. *)
Lemma find_center_mean (pts : list (point R)) :
  pts <> [] ->
  find_center pts =
  Ok ((Rsum (map fst pts) / INR (length pts))%R,
      (Rsum (map snd pts) / INR (length pts))%R).
Proof.
  intros Hne. unfold find_center, py_div.
  destruct (Z.eqb_spec (len pts) 0) as [E | _].
  - destruct pts; [contradiction | unfold len in E; simpl in E; lia].
  - rewrite fold_left_padd. cbn [bind fst snd of_int fdiv Arith_R].
    unfold len. rewrite <- INR_IZR_INZ. do 2 f_equal; unfold Rdiv; rewrite Rplus_0_l;
      reflexivity.
Qed.

Lemma INR_length_pos {A : Type} (l : list A) : l <> [] -> (0 < INR (length l))%R.
Proof.
  intros Hne. destruct l; [contradiction |]. apply lt_0_INR. simpl. lia.
Qed.

Lemma Rsum_moved (pts : list (point R)) (v : point R) :
  Rsum (map fst (map (fun p => padd p v) pts)) =
    (Rsum (map fst pts) + INR (length pts) * fst v)%R /\
  Rsum (map snd (map (fun p => padd p v) pts)) =
    (Rsum (map snd pts) + INR (length pts) * snd v)%R.
Proof.
  induction pts as [| p pts [IHx IHy]].
  - simpl. split; ring.
  - unfold Rsum in *. cbn [map fold_right length]. rewrite IHx, IHy, S_INR.
    unfold padd. cbn [fst snd fadd Arith_R]. split; ring.
Qed.

Lemma Rsum_scaled (pts : list (point R)) (k : R) :
  Rsum (map fst (map (fun p => (fmul (fst p) k, fmul (snd p) k)) pts)) =
    (Rsum (map fst pts) * k)%R /\
  Rsum (map snd (map (fun p => (fmul (fst p) k, fmul (snd p) k)) pts)) =
    (Rsum (map snd pts) * k)%R.
Proof.
  induction pts as [| p pts [IHx IHy]].
  - simpl. split; ring.
  - unfold Rsum in *. cbn [map fold_right]. rewrite IHx, IHy.
    cbn [fst snd fmul Arith_R]. split; ring.
Qed.

(** X2: translating a polygon by a vector translates its center by the
    same vector: for a polygon that the constructor returned,
    [polygon + v] is returned too, holds the moved points, and its center
    is the old center plus [v] (real arithmetic). *)
Theorem Polygon_add_center (pts : list (point R)) (poly : Polygon R) (v : point R) :
  mk_Polygon pts = Ok poly ->
  exists moved,
    Polygon_add poly v = Ok moved /\
    points moved = map (fun p => padd p v) pts /\
    shape_center moved = padd (shape_center poly) v.
Proof.
  intros Hpoly.
  assert (Hne : pts <> []) by (intros ->; discriminate Hpoly).
  unfold mk_Polygon in Hpoly.
  rewrite (find_center_mean pts Hne) in Hpoly. cbn [bind] in Hpoly.
  injection Hpoly as <-.
  unfold Polygon_add, mk_Polygon. cbn [points].
  rewrite find_center_mean
    by (intros E; apply map_eq_nil in E; contradiction).
  cbn [bind]. eexists. split; [reflexivity |].
  split; [reflexivity |].
  cbn [shape_center].
  destruct (Rsum_moved pts v) as [Hx Hy]. rewrite Hx, Hy, length_map.
  pose proof (INR_length_pos pts Hne) as Hpos.
  unfold padd. cbn [fst snd fadd Arith_R]. f_equal; field; lra.
Qed.

Lemma Polygon_add_center_witness :
  exists moved,
    Polygon_add {| points := [(0%R, 0%R)];
                   shape_center := (((0 + 0) / 1)%R, ((0 + 0) / 1)%R) |}
                (1%R, 2%R) = Ok moved /\
    points moved = map (fun p => padd p (1%R, 2%R)) [(0%R, 0%R)] /\
    shape_center moved = padd (((0 + 0) / 1)%R, ((0 + 0) / 1)%R) (1%R, 2%R).
Proof. apply (Polygon_add_center [(0%R, 0%R)]). reflexivity. Defined.

(** X3: multiplying a polygon by a scalar multiplies its center by the
    same scalar: for a polygon that the constructor returned, [polygon * k]
    is returned too, holds the scaled points, and its center is the old
    center times [k] (real arithmetic). *)
Theorem Polygon_mul_center (pts : list (point R)) (poly : Polygon R) (k : R) :
  mk_Polygon pts = Ok poly ->
  exists scaled,
    Polygon_mul poly k = Ok scaled /\
    points scaled = map (fun p => ((fst p * k)%R, (snd p * k)%R)) pts /\
    shape_center scaled =
      ((fst (shape_center poly) * k)%R, (snd (shape_center poly) * k)%R).
Proof.
  intros Hpoly.
  assert (Hne : pts <> []) by (intros ->; discriminate Hpoly).
  unfold mk_Polygon in Hpoly.
  rewrite (find_center_mean pts Hne) in Hpoly. cbn [bind] in Hpoly.
  injection Hpoly as <-.
  unfold Polygon_mul, mk_Polygon. cbn [points].
  rewrite find_center_mean
    by (intros E; apply map_eq_nil in E; contradiction).
  cbn [bind]. eexists. split; [reflexivity |].
  split; [reflexivity |].
  cbn [shape_center].
  destruct (Rsum_scaled pts k) as [Hx Hy]. rewrite Hx, Hy, length_map.
  pose proof (INR_length_pos pts Hne) as Hpos.
  cbn [fst snd]. unfold point in *. apply (f_equal2 (@pair R R)); field; lra.
Qed.

Lemma Polygon_mul_center_witness :
  exists scaled,
    Polygon_mul {| points := [(1%R, 2%R)];
                   shape_center := (((0 + 1) / 1)%R, ((0 + 2) / 1)%R) |} 3%R = Ok scaled /\
    points scaled = map (fun p => ((fst p * 3)%R, (snd p * 3)%R)) [(1%R, 2%R)] /\
    shape_center scaled = (((0 + 1) / 1 * 3)%R, ((0 + 2) / 1 * 3)%R).
Proof. apply (Polygon_mul_center [(1%R, 2%R)]). reflexivity. Defined.

(** *** The centroid of a regular polygon *)

(** The sums of the cosines and of the sines of equally spaced angles
    telescope. *)
Lemma cos_sum_telescope (a h : R) (k : nat) :
  (2 * sin (h / 2) * Rsum (map (fun n => cos (a + INR n * h)) (seq 0 k)) =
   sin (a + INR k * h - h / 2) - sin (a - h / 2))%R.
Proof.
  induction k as [| k IH].
  - simpl. replace (a + 0 * h - h / 2)%R with (a - h / 2)%R by ring. ring.
  - rewrite seq_S, map_app, Rsum_app, Rmult_plus_distr_l, IH.
    cbn [map Rsum fold_right Nat.add]. rewrite S_INR.
    replace (a + (INR k + 1) * h - h / 2)%R with ((a + INR k * h) + h / 2)%R by field.
    replace (a + INR k * h - h / 2)%R with ((a + INR k * h) - h / 2)%R by ring.
    rewrite (sin_plus (a + INR k * h) (h / 2)), (sin_minus (a + INR k * h) (h / 2)).
    ring.
Qed.

Lemma sin_sum_telescope (a h : R) (k : nat) :
  (2 * sin (h / 2) * Rsum (map (fun n => sin (a + INR n * h)) (seq 0 k)) =
   cos (a - h / 2) - cos (a + INR k * h - h / 2))%R.
Proof.
  induction k as [| k IH].
  - simpl. replace (a + 0 * h - h / 2)%R with (a - h / 2)%R by ring. ring.
  - rewrite seq_S, map_app, Rsum_app, Rmult_plus_distr_l, IH.
    cbn [map Rsum fold_right Nat.add]. rewrite S_INR.
    replace (a + (INR k + 1) * h - h / 2)%R with ((a + INR k * h) + h / 2)%R by field.
    replace (a + INR k * h - h / 2)%R with ((a + INR k * h) - h / 2)%R by ring.
    rewrite (cos_plus (a + INR k * h) (h / 2)), (cos_minus (a + INR k * h) (h / 2)).
    ring.
Qed.

Lemma sin_2PI_shift (x : R) : sin (x + 2 * PI) = sin x.
Proof. rewrite sin_plus, sin_2PI, cos_2PI. ring. Qed.

Lemma cos_2PI_shift (x : R) : cos (x + 2 * PI) = cos x.
Proof. rewrite cos_plus, sin_2PI, cos_2PI. ring. Qed.

(** Over a full turn in N >= 2 steps both sums vanish. *)
Lemma full_turn_sums (a : R) (N : nat) :
  (2 <= N)%nat ->
  Rsum (map (fun n => cos (a + INR n * (2 * PI / INR N))) (seq 0 N)) = 0%R /\
  Rsum (map (fun n => sin (a + INR n * (2 * PI / INR N))) (seq 0 N)) = 0%R.
Proof.
  intros HN.
  assert (HNR : (2 <= INR N)%R) by (apply (le_INR 2); exact HN).
  set (h := (2 * PI / INR N)%R).
  assert (Hh : (h / 2 = PI / INR N)%R) by (unfold h; field; lra).
  assert (Hturn : (a + INR N * h - h / 2 = (a - h / 2) + 2 * PI)%R)
    by (unfold h; field; lra).
  pose proof PI_RGT_0 as Hpi.
  assert (Hsin : (0 < sin (h / 2))%R).
  { rewrite Hh. apply sin_gt_0.
    - apply Rdiv_lt_0_compat; lra.
    - apply (Rmult_lt_reg_r (INR N)); [lra |].
      unfold Rdiv. rewrite Rmult_assoc, Rinv_l by lra. nra. }
  pose proof (cos_sum_telescope a h N) as Hc.
  pose proof (sin_sum_telescope a h N) as Hs.
  rewrite Hturn in Hc, Hs. rewrite sin_2PI_shift in Hc. rewrite cos_2PI_shift in Hs.
  split.
  - apply (Rmult_eq_reg_l (2 * sin (h / 2))); [| lra]. rewrite Hc. ring.
  - apply (Rmult_eq_reg_l (2 * sin (h / 2))); [| lra]. rewrite Hs. ring.
Qed.

Lemma Rsum_affine {A : Type} (f : A -> R) (r v : R) (l : list A) :
  Rsum (map (fun a => (r * f a + v)%R) l) =
  (r * Rsum (map f l) + INR (length l) * v)%R.
Proof.
  induction l as [| a l IH].
  - simpl. ring.
  - unfold Rsum in *. cbn [map fold_right length]. rewrite IH, S_INR. ring.
Qed.

Lemma vertex_angle_nat (n k : nat) (a : R) :
  (1 <= n)%nat ->
  vertex_angle (Z.of_nat n) a (Z.of_nat k) = (a + INR k * (2 * PI / INR n))%R.
Proof.
  intros Hn. unfold vertex_angle. rewrite <- !INR_IZR_INZ.
  assert (0 < INR n)%R by (apply lt_0_INR; lia). field. lra.
Qed.

(** The coordinates of the vertices of a regular N-gon, N >= 2, add up to N
    times the coordinates of its center. *)
Lemma regular_points_sums (n : nat) (r : R) (c : point R) (a : R) :
  (2 <= n)%nat ->
  Rsum (map fst (map (fun k => polar c r (vertex_angle (Z.of_nat n) a k))
                     (range (Z.of_nat n)))) = (INR n * fst c)%R /\
  Rsum (map snd (map (fun k => polar c r (vertex_angle (Z.of_nat n) a k))
                     (range (Z.of_nat n)))) = (INR n * snd c)%R.
Proof.
  intros Hn. unfold range. rewrite Nat2Z.id, !map_map.
  destruct (full_turn_sums a n Hn) as [Hcos Hsin].
  split.
  - rewrite (map_ext_in _ (fun k => (r * cos (a + INR k * (2 * PI / INR n)) + fst c)%R)).
    + rewrite (Rsum_affine (fun k => cos (a + INR k * (2 * PI / INR n))) r (fst c)).
      rewrite Hcos, length_seq. ring.
    + intros k _. unfold polar. cbn [fst]. rewrite vertex_angle_nat by lia. reflexivity.
  - rewrite (map_ext_in _ (fun k => (r * sin (a + INR k * (2 * PI / INR n)) + snd c)%R)).
    + rewrite (Rsum_affine (fun k => sin (a + INR k * (2 * PI / INR n))) r (snd c)).
      rewrite Hsin, length_seq. ring.
    + intros k _. unfold polar. cbn [snd]. rewrite vertex_angle_nat by lia. reflexivity.
Qed.

(** The polygon that the constructor returns for N >= 2. *)
Lemma n_Sided_Polygon_value (N : Z) (r : R) (c : point R) (a : R) :
  2 <= N ->
  n_Sided_Polygon N r c a =
  Ok {| points := map (fun k => polar c r (vertex_angle N a k)) (range N);
        shape_center := c |}.
Proof.
  intros HN.
  assert (HNn : N = Z.of_nat (Z.to_nat N)) by lia.
  set (n := Z.to_nat N) in *.
  assert (Hn : (2 <= n)%nat) by lia.
  unfold n_Sided_Polygon.
  rewrite (mapM_total _ (fun k => polar c r (vertex_angle N a k))).
  - cbn [bind]. unfold mk_Polygon.
    set (pts := map (fun k => polar c r (vertex_angle N a k)) (range N)).
    assert (Hlen : length pts = n).
    { unfold pts. rewrite length_map, range_length. reflexivity. }
    assert (Hne : pts <> []).
    { intros E. rewrite E in Hlen. simpl in Hlen. lia. }
    rewrite (find_center_mean pts Hne). cbn [bind].
    do 2 f_equal. rewrite Hlen. unfold pts. rewrite HNn.
    destruct (regular_points_sums n r c a Hn) as [Hx Hy]. rewrite Hx, Hy.
    assert (0 < INR n)%R by (apply lt_0_INR; lia).
    destruct c as [cx cy]. cbn [fst snd].
    apply (f_equal2 (@pair R R)); field; lra.
  - intros k _. unfold py_div.
    destruct (Z.eqb_spec N 0) as [E | _]; [lia |]. reflexivity.
Qed.

(** X4: the center that the constructor computes for a regular polygon of
    N >= 2 vertices (the mean of the vertices) is the center it was given,
    for every radius and start angle (real arithmetic). *)
Theorem n_Sided_Polygon_center (N : Z) (r : R) (c : point R) (a : R) :
  2 <= N ->
  exists poly,
    n_Sided_Polygon N r c a = Ok poly /\ shape_center poly = c.
Proof.
  intros HN. eexists. split; [apply n_Sided_Polygon_value; exact HN | reflexivity].
Qed.

Lemma n_Sided_Polygon_center_witness :
  exists poly,
    n_Sided_Polygon 3 2%R (1%R, 1%R) 0%R = Ok poly /\ shape_center poly = (1%R, 1%R).
Proof. apply (n_Sided_Polygon_center 3 2%R (1%R, 1%R) 0%R). lia. Defined.

(** *** Squares *)

Lemma half_diagonal (l : R) : (R_sqrt.sqrt 2 * l / 2 * (1 / R_sqrt.sqrt 2) = l / 2)%R.
Proof.
  assert (0 < R_sqrt.sqrt 2)%R by (apply sqrt_lt_R0; lra). field. lra.
Qed.

(** X5: with the default angle pi/4 the square of side l about c has its
    sides parallel to the axes: its points are c + (l/2, l/2),
    c + (-l/2, l/2), c + (-l/2, -l/2) and c + (l/2, -l/2), in this order, and
    its center is c (real arithmetic). *)
Theorem Square_axis_aligned (l : R) (c : point R) :
  Square l c (PI / 4)%R =
  Ok {| points := [((fst c + l / 2)%R, (snd c + l / 2)%R);
                   ((fst c - l / 2)%R, (snd c + l / 2)%R);
                   ((fst c - l / 2)%R, (snd c - l / 2)%R);
                   ((fst c + l / 2)%R, (snd c - l / 2)%R)];
        shape_center := c |}.
Proof.
  unfold Square. cbn [math_sqrt Sqrt_R of_int Arith_R].
  destruct (Rlt_dec 2 0) as [Hneg | _]; [lra |]. cbn [bind fdiv fmul Arith_R].
  rewrite n_Sided_Polygon_value by lia.
  do 2 f_equal. change (range 4) with [0; 1; 2; 3]. cbn [map].
  unfold polar, vertex_angle.
  pose proof (half_diagonal l) as Hhalf.
  replace (2 * PI * 0 / 4 + PI / 4)%R with (PI / 4)%R by field.
  replace (2 * PI * 1 / 4 + PI / 4)%R with (3 * (PI / 4))%R by field.
  replace (2 * PI * 2 / 4 + PI / 4)%R with (PI / 4 + PI)%R by field.
  replace (2 * PI * 3 / 4 + PI / 4)%R with (3 * (PI / 4) + PI)%R by field.
  rewrite !neg_cos, !neg_sin, cos_PI4, sin_PI4, cos_3PI4, sin_3PI4.
  repeat (f_equal; try (apply (f_equal2 (@pair R R)); nra)).
Qed.

(** ** The depth of a transformation *)

Lemma range_nonpositive (n : Z) : n <= 0 -> range n = [].
Proof. intros Hn. unfold range. replace (Z.to_nat n) with 0%nat by lia. reflexivity. Qed.

Lemma mapM_py_div_length {F : Type} `{Arith F} {B : Type} (x : Z -> F) (k : Z -> F -> B)
  (depth : Z) (l : list Z) :
  depth <> 0 ->
  exists bs, mapM (fun i => q <- py_div (x i) depth ;; Ok (k i q)) l = Ok bs /\
             length bs = length l.
Proof.
  intros Hd.
  exists (map (fun i => k i (fdiv (x i) (of_int depth))) l). split.
  - apply mapM_total. intros i _. unfold py_div.
    destruct (Z.eqb_spec depth 0) as [E | _]; [contradiction | reflexivity].
  - apply length_map.
Qed.

(** X6: [Rotation(theta, center, depth)] raises ZeroDivisionError at the
    depth 0, returns a transformation with an empty stack of matrices at
    every negative depth, and returns a stack of depth+1 matrices at every
    positive depth; the pivot is the one given. *)
Theorem Rotation_depth {F : Type} `{Arith F} `{Trig F} (theta : F)
  (c : option (point F)) (depth : Z) :
  (depth = 0 -> Rotation theta c depth = Raise ZeroDivisionError) /\
  (depth < 0 -> Rotation theta c depth = Ok {| trans_mat := []; center := c |}) /\
  (0 < depth -> exists t, Rotation theta c depth = Ok t /\
                          len (trans_mat t) = depth + 1 /\ center t = c).
Proof.
  split; [intros ->; reflexivity |].
  split.
  - intros Hd. unfold Rotation. rewrite range_nonpositive by lia.
    destruct c; reflexivity.
  - intros Hd. unfold Rotation.
    destruct (mapM_py_div_length
                (fun _ => fdiv (fmul theta pi) (of_int 180))
                (fun i q => ((np_cos (fmul q (of_int i)), fneg (np_sin (fmul q (of_int i)))),
                             (np_sin (fmul q (of_int i)), np_cos (fmul q (of_int i)))))
                depth (range (depth + 1))) as [ms [Hms Hlen]]; [lia |].
    rewrite Hms. cbn [bind]. eexists. split; [reflexivity |].
    cbn [trans_mat center]. split.
    + etransitivity; [exact (f_equal Z.of_nat Hlen) |]. rewrite range_length. lia.
    + destruct c; reflexivity.
Qed.

Lemma Rotation_depth_witness :
  exists t, Rotation 90%R None 3 = Ok t /\ len (trans_mat t) = 3 + 1 /\ center t = None.
Proof. apply (proj2 (proj2 (Rotation_depth 90%R None 3))). lia. Defined.

(** X7: [Dilation(scale_factor, depth)] raises ZeroDivisionError at the
    depth 0, returns an empty stack of matrices at every negative depth and
    a stack of depth+1 matrices at every positive depth, for every scale
    factor. *)
Theorem Dilation_depth {F : Type} `{Arith F} (scale_factor : F) (depth : Z) :
  (depth = 0 -> Dilation scale_factor depth = Raise ZeroDivisionError) /\
  (depth < 0 -> Dilation scale_factor depth = Ok {| trans_mat := []; center := None |}) /\
  (0 < depth -> exists t, Dilation scale_factor depth = Ok t /\
                          len (trans_mat t) = depth + 1).
Proof.
  split; [intros ->; unfold Dilation; destruct (fgtb scale_factor (of_int 1)); reflexivity |].
  split.
  - intros Hd. unfold Dilation. rewrite range_nonpositive by lia.
    destruct (fgtb scale_factor (of_int 1)); reflexivity.
  - intros Hd. unfold Dilation. destruct (fgtb scale_factor (of_int 1)).
    + destruct (mapM_py_div_length
                  (fun i => fmul (of_int i) scale_factor)
                  (fun (_ : Z) q => ((fadd (of_int 1) q, of_int 0),
                                     (of_int 0, fadd (of_int 1) q)))
                  depth (range (depth + 1))) as [ms [Hms Hlen]]; [lia |].
      rewrite Hms. cbn [bind]. eexists. split; [reflexivity |].
      cbn [trans_mat]. etransitivity; [exact (f_equal Z.of_nat Hlen) |].
      rewrite range_length. lia.
    + destruct (mapM_py_div_length
                  (fun i => fmul (of_int i) (fsub (of_int 1) scale_factor))
                  (fun (_ : Z) q => ((fsub (of_int 1) q, of_int 0),
                                     (of_int 0, fsub (of_int 1) q)))
                  depth (range (depth + 1))) as [ms [Hms Hlen]]; [lia |].
      rewrite Hms. cbn [bind]. eexists. split; [reflexivity |].
      cbn [trans_mat]. etransitivity; [exact (f_equal Z.of_nat Hlen) |].
      rewrite range_length. lia.
Qed.

Lemma Dilation_depth_witness :
  exists t, Dilation (flt 3) 4 = Ok t /\ len (trans_mat t) = 4 + 1.
Proof. apply (proj2 (proj2 (Dilation_depth (flt 3) 4))). lia. Defined.

(** X8: for a scale factor s > 1 and a depth d >= 1 the factor of the
    matrix at the index i is 1 + i*s/d: the stack starts at the factor 1 and
    ends at the factor 1 + s (real arithmetic). *)
Theorem Dilation_above_one_stack (s : R) (d : Z) :
  (1 < s)%R -> 1 <= d ->
  exists t,
    Dilation s d = Ok t /\
    (forall i, 0 <= i <= d ->
       getitem (trans_mat t) i = Ok (scaling_matrix (1 + IZR i * s / IZR d)%R)) /\
    getitem (trans_mat t) 0 = Ok (scaling_matrix 1%R) /\
    getitem (trans_mat t) d = Ok (scaling_matrix (1 + s)%R).
Proof.
  intros Hs Hd. eexists. split; [apply Dilation_stack_gt; [exact Hs | lia] |].
  cbn [trans_mat].
  split; [intros i Hi; rewrite getitem_map_range by lia; reflexivity |].
  split.
  - rewrite getitem_map_range by lia. do 2 f_equal. unfold Rdiv. ring.
  - rewrite getitem_map_range by lia. do 2 f_equal. field. apply not_0_IZR. lia.
Qed.

Lemma Dilation_above_one_stack_witness :
  exists t,
    Dilation 3%R 2 = Ok t /\
    (forall i, 0 <= i <= 2 ->
       getitem (trans_mat t) i = Ok (scaling_matrix (1 + IZR i * 3 / IZR 2)%R)) /\
    getitem (trans_mat t) 0 = Ok (scaling_matrix 1%R) /\
    getitem (trans_mat t) 2 = Ok (scaling_matrix (1 + 3)%R).
Proof. apply (Dilation_above_one_stack 3%R 2); [lra | lia]. Defined.

(** ** One transformation *)

Section Single.
Context {F : Type} `{Arith F}.
Variable store : addr -> Transformation F.

Lemma reorder_singleton (a : addr) : reorder store [a] = [a].
Proof.
  rewrite reorder_stable_partition. unfold stable_partition. cbn [filter].
  destruct (center_relative store a); reflexivity.
Qed.

(** The first transformation of a list moves every point about its pivot,
    by each matrix of its stack. *)
Lemma apply_first_about (shape : Polygon F) (t : Transformation F) :
  trans_mat t <> [] ->
  apply_first shape t =
  Ok (map (fun m => map (about (pivot_of shape t) m) (points shape)) (trans_mat t)).
Proof.
  intros Hne. unfold apply_first, pivot_of.
  destruct (center t) as [c |]; rewrite np_dot_stack_nonempty by exact Hne;
    cbn [bind]; rewrite map_map; f_equal; apply map_ext; intros m;
    unfold np_dot; rewrite !map_map; reflexivity.
Qed.

Lemma render_shape_single (shape : Polygon F) (a : addr) :
  trans_mat (store a) <> [] ->
  render_shape store shape [a] =
  Ok (map (fun m => map (about (pivot_of shape (store a)) m) (points shape))
          (trans_mat (store a))).
Proof.
  intros Hne. unfold render_shape. rewrite reorder_singleton. cbn [apply_all].
  rewrite apply_first_about by exact Hne. reflexivity.
Qed.

End Single.

Lemma getitem_In {A : Type} (l : list A) (i : Z) (x : A) : getitem l i = Ok x -> In x l.
Proof.
  unfold getitem. destruct (nth_error l (Z.to_nat i)) as [y |] eqn:E; [| discriminate].
  intros [= <-]. apply nth_error_In in E. exact E.
Qed.

Lemma Forall2_map_same {A B : Type} (P : A -> B -> Prop) (f : A -> B) (l : list A) :
  (forall a, P a (f a)) -> Forall2 P l (map f l).
Proof. intros Hf. induction l; simpl; constructor; auto. Qed.

(** A rotation about [c] keeps the distance to [c]. *)
Lemma rotation_isometry (t : R) (c p : point R) :
  dist (about c (rotation_matrix t) p) c = dist p c.
Proof.
  destruct p as [x y], c as [cx cy].
  unfold dist, about, padd, psub, mat_apply, rotation_matrix.
  cbn [fst snd fadd fsub fmul Arith_R]. f_equal.
  replace (Rsqr (cos t * (x - cx) + - sin t * (y - cy) + cx - cx) +
           Rsqr (sin t * (x - cx) + cos t * (y - cy) + cy - cy))%R
    with ((Rsqr (x - cx) + Rsqr (y - cy)) * (Rsqr (sin t) + Rsqr (cos t)))%R
    by (unfold Rsqr; ring).
  rewrite sin2_cos2. ring.
Qed.

Lemma range_nonempty (n : Z) : 1 <= n -> range n <> [].
Proof.
  intros Hn E. apply (f_equal (@length Z)) in E. rewrite range_length in E.
  simpl in E. lia.
Qed.

(** X9: a Rotation about a fixed pivot, alone in the list of a shape, is
    rendered to depth+1 point sets in which every point is as far from the
    pivot as the point of the shape it comes from (real arithmetic). *)
Theorem Rotation_keeps_distance (theta : R) (c : point R) (D : Z)
  (store : addr -> Transformation R) (a : addr) (shape : Polygon R) :
  1 <= D ->
  Rotation theta (Some c) D = Ok (store a) ->
  exists new_shape,
    render_shape store shape [a] = Ok new_shape /\
    len new_shape = D + 1 /\
    forall i fr, getitem new_shape i = Ok fr ->
      Forall2 (fun p q => dist q c = dist p c) (points shape) fr.
Proof.
  intros HD Hrot. rewrite Rotation_stack in Hrot by lia.
  injection Hrot as Hrot.
  assert (Hne : trans_mat (store a) <> []).
  { rewrite <- Hrot. cbn [trans_mat]. intros E. apply map_eq_nil in E.
    revert E. apply range_nonempty. lia. }
  rewrite (render_shape_single store shape a Hne). eexists. split; [reflexivity |].
  rewrite <- Hrot. unfold pivot_of. cbn [trans_mat center]. split.
  - unfold len. rewrite !length_map, range_length. lia.
  - intros i fr Hfr. apply getitem_In in Hfr. rewrite map_map in Hfr.
    apply in_map_iff in Hfr. destruct Hfr as [k [<- _]].
    apply Forall2_map_same. intros p. apply rotation_isometry.
Qed.

Lemma Rotation_keeps_distance_witness :
  exists new_shape,
    render_shape (rotation_store 90 (Some (0%R, 0%R)) 2) triangle [0%nat] = Ok new_shape /\
    len new_shape = 2 + 1 /\
    forall i fr, getitem new_shape i = Ok fr ->
      Forall2 (fun p q => dist q (0%R, 0%R) = dist p (0%R, 0%R)) (points triangle) fr.
Proof.
  apply (Rotation_keeps_distance 90%R (0%R, 0%R) 2).
  - lia.
  - apply Rotation_stack. lia.
Defined.

Lemma about_identity (c p : point R) : about c identity_matrix p = p.
Proof.
  destruct p as [x y], c as [cx cy].
  unfold about, padd, psub, mat_apply, identity_matrix.
  cbn [fst snd fadd fsub fmul Arith_R]. apply (f_equal2 (@pair R R)); ring.
Qed.

Lemma map_about_identity (c : point R) (pts : list (point R)) :
  map (about c identity_matrix) pts = pts.
Proof.
  rewrite <- (map_id pts) at 2. apply map_ext. intros p. apply about_identity.
Qed.

(** X10: the animation starts at the shape itself: for a Rotation (with or
    without pivot) or a Dilation of a depth >= 1, alone in the list of a
    shape, the point set at the depth index 0 is the point list of the shape
    (real arithmetic). *)
Theorem first_frame_is_shape (store : addr -> Transformation R) (a : addr)
  (shape : Polygon R) (D : Z) :
  1 <= D ->
  (forall theta c,
     Rotation theta c D = Ok (store a) ->
     exists new_shape,
       render_shape store shape [a] = Ok new_shape /\
       getitem new_shape 0 = Ok (points shape)) /\
  (forall s,
     Dilation s D = Ok (store a) ->
     exists new_shape,
       render_shape store shape [a] = Ok new_shape /\
       getitem new_shape 0 = Ok (points shape)).
Proof.
  intros HD.
  assert (Hgen : forall g : Z -> mat2 R,
            g 0 = identity_matrix ->
            trans_mat (store a) = map g (range (D + 1)) ->
            exists new_shape,
              render_shape store shape [a] = Ok new_shape /\
              getitem new_shape 0 = Ok (points shape)).
  { intros g Hg0 Htm.
    assert (Hne : trans_mat (store a) <> []).
    { rewrite Htm. intros E. apply map_eq_nil in E. revert E.
      apply range_nonempty. lia. }
    rewrite (render_shape_single store shape a Hne). eexists. split; [reflexivity |].
    rewrite Htm, map_map. rewrite getitem_map_range by lia. rewrite Hg0.
    f_equal. apply map_about_identity. }
  split.
  - intros theta c Hrot. rewrite Rotation_stack in Hrot by lia.
    injection Hrot as Hrot.
    apply (Hgen (fun i => rotation_matrix (theta * PI / 180 * IZR i / IZR D))).
    + rewrite <- rotation_matrix_0. f_equal. unfold Rdiv. ring.
    + rewrite <- Hrot. reflexivity.
  - intros s Hdil. destruct (Rle_or_lt s 1) as [Hle | Hgt].
    + rewrite Dilation_stack_le in Hdil by (try assumption; lia).
      injection Hdil as Hdil.
      apply (Hgen (fun i => scaling_matrix (1 + (s - 1) * IZR i / IZR D)%R)).
      * unfold scaling_matrix, identity_matrix. cbn [of_int Arith_R].
        do 2 (apply (f_equal2 (@pair _ _)); try reflexivity); unfold Rdiv; ring.
      * rewrite <- Hdil. reflexivity.
    + rewrite Dilation_stack_gt in Hdil by (try assumption; lia).
      injection Hdil as Hdil.
      apply (Hgen (fun i => scaling_matrix (1 + IZR i * s / IZR D)%R)).
      * unfold scaling_matrix, identity_matrix. cbn [of_int Arith_R].
        do 2 (apply (f_equal2 (@pair _ _)); try reflexivity); unfold Rdiv; ring.
      * rewrite <- Hdil. reflexivity.
Qed.

Lemma first_frame_is_shape_witness :
  exists new_shape,
    render_shape (rotation_store 90 None 2) triangle [0%nat] = Ok new_shape /\
    getitem new_shape 0 = Ok (points triangle).
Proof.
  apply (proj1 (first_frame_is_shape (rotation_store 90 None 2) 0%nat triangle 2
                  ltac:(lia)) 90%R None).
  apply Rotation_stack. lia.
Defined.

(** ** Several transformations *)

Lemma mapM_app {A B : Type} (f : A -> result B) (l1 l2 : list A) :
  mapM f (l1 ++ l2) = (bs1 <- mapM f l1 ;; bs2 <- mapM f l2 ;; Ok (bs1 ++ bs2)).
Proof.
  induction l1 as [| a l1 IH]; simpl.
  - destruct (mapM f l2); reflexivity.
  - destruct (f a) as [b |]; simpl; [| reflexivity].
    rewrite IH. destruct (mapM f l1); simpl; [| reflexivity].
    destruct (mapM f l2); reflexivity.
Qed.

Lemma getitem_nth_ok {A : Type} (l : list A) (i : Z) (d : A) :
  (Z.to_nat i < length l)%nat -> getitem l i = Ok (nth (Z.to_nat i) l d).
Proof.
  intros Hi. unfold getitem. rewrite (nth_error_nth' l d Hi). reflexivity.
Qed.

Lemma getitem_out {A : Type} (l : list A) (i : Z) :
  (length l <= Z.to_nat i)%nat -> getitem l i = Raise IndexError.
Proof.
  intros Hi. unfold getitem.
  destruct (nth_error l (Z.to_nat i)) eqn:E; [| reflexivity].
  assert (Hlt : (Z.to_nat i < length l)%nat) by (apply nth_error_Some; congruence).
  lia.
Qed.

Lemma foldM_ok {A S : Type} (P : S -> Prop) (f : S -> A -> result S) (l : list A) :
  (forall s a, P s -> In a l -> exists s', f s a = Ok s' /\ P s') ->
  forall s, P s -> exists s', foldM f l s = Ok s' /\ P s'.
Proof.
  induction l as [| a l IH]; intros Hf s Hs; simpl.
  - exists s. split; [reflexivity | exact Hs].
  - destruct (Hf s a Hs (or_introl eq_refl)) as [s1 [E1 H1]]. rewrite E1. simpl.
    apply IH; [| exact H1]. intros s2 b H2 Hb. apply Hf; [exact H2 | right; exact Hb].
Qed.

Section Several.
Context {F : Type} `{Arith F}.
Variable store : addr -> Transformation F.

Lemma shaped_nth (L N : nat) (st : stack F) (i : nat) :
  shaped L N st -> (i < L)%nat -> length (nth i st []) = N.
Proof.
  intros [Hlen Hall] Hi. rewrite Forall_forall in Hall. apply Hall.
  apply nth_In. lia.
Qed.

Lemma shaped_map (L N : nat) (st : stack F) (g : point F -> point F) :
  shaped L N st -> shaped L N (map (map g) st).
Proof.
  intros [Hlen Hall]. split; [rewrite length_map; exact Hlen |].
  apply (Forall_map_intro (fun fr => length fr = N) (fun fr => length fr = N));
    [| exact Hall].
  intros fr Hfr. rewrite length_map. exact Hfr.
Qed.

(** The step of [dot_each] at an index where both lists have an entry. *)
Lemma dot_each_step (ms : list (mat2 F)) (ns : stack F) (L N : nat) (i : Z)
  (dm : mat2 F) :
  shaped L N ns -> (1 <= N)%nat -> (Z.to_nat i < length ms)%nat ->
  (Z.to_nat i < L)%nat ->
  (m <- getitem ms i ;;
   fr <- getitem ns i ;;
   match fr with
   | [] => Raise ValueError
   | _ => Ok (np_dot m fr)
   end) = Ok (np_dot (nth (Z.to_nat i) ms dm) (nth (Z.to_nat i) ns [])).
Proof.
  intros Hns HN Hms Hi.
  rewrite (getitem_nth_ok ms i dm) by exact Hms. cbn [bind].
  rewrite (getitem_nth_ok ns i []) by (destruct Hns; lia). cbn [bind].
  pose proof (shaped_nth L N ns (Z.to_nat i) Hns Hi) as Hfr.
  destruct (nth (Z.to_nat i) ns []); [simpl in Hfr; lia | reflexivity].
Qed.

Lemma dot_each_shaped (ms : list (mat2 F)) (ns : stack F) (L N : nat) :
  shaped L N ns -> (1 <= N)%nat -> (length ms <= L)%nat ->
  exists ns', dot_each ms ns = Ok ns' /\ shaped (length ms) N ns'.
Proof.
  intros Hns HN Hms.
  set (dm := ((of_int 0, of_int 0), (of_int 0, of_int 0)) : mat2 F).
  exists (map (fun i => np_dot (nth (Z.to_nat i) ms dm) (nth (Z.to_nat i) ns []))
              (range (len ms))).
  split.
  - unfold dot_each. apply mapM_total. intros i Hi.
    apply in_range in Hi. unfold len in Hi.
    apply (dot_each_step ms ns L N i dm); try assumption; lia.
  - split.
    + rewrite length_map, range_length. unfold len. lia.
    + apply Forall_forall. intros fr Hfr. apply in_map_iff in Hfr.
      destruct Hfr as [i [<- Hi]]. apply in_range in Hi. unfold len in Hi.
      unfold np_dot. rewrite length_map.
      apply (shaped_nth L N ns); [exact Hns | lia].
Qed.

(** A stack of matrices longer than the stack of point sets runs off its
    end. *)
Lemma dot_each_too_long (ms : list (mat2 F)) (ns : stack F) (L N : nat) :
  shaped L N ns -> (1 <= N)%nat -> (L < length ms)%nat ->
  dot_each ms ns = Raise IndexError.
Proof.
  intros Hns HN Hms.
  set (dm := ((of_int 0, of_int 0), (of_int 0, of_int 0)) : mat2 F).
  unfold dot_each, range, len. rewrite Nat2Z.id.
  replace (length ms) with (L + S (length ms - L - 1))%nat by lia.
  rewrite seq_app, map_app, mapM_app. cbn [Nat.add seq map mapM].
  rewrite (mapM_total _ (fun i => np_dot (nth (Z.to_nat i) ms dm)
                                         (nth (Z.to_nat i) ns []))).
  - cbn [bind]. rewrite (getitem_nth_ok ms (Z.of_nat L) dm) by lia. cbn [bind].
    rewrite getitem_out by (destruct Hns; lia). reflexivity.
  - intros i Hi. apply in_map_iff in Hi. destruct Hi as [k [<- Hk]].
    apply in_seq in Hk.
    apply (dot_each_step ms ns L N (Z.of_nat k) dm); try assumption; lia.
Qed.

Lemma add_pivot_shaped (L N : nat) (st : stack F) (c : point F) :
  (1 <= L)%nat -> shaped L N st -> shaped L N (add_pivot st c).
Proof.
  intros HL Hst. unfold add_pivot.
  destruct st as [| fr st']; [destruct Hst as [Hlen _]; simpl in Hlen; lia |].
  apply shaped_map. exact Hst.
Qed.

Lemma apply_next_shaped (shape : Polygon F) (ns : stack F) (t : Transformation F)
  (L N : nat) :
  shaped L N ns -> (1 <= N)%nat ->
  (1 <= length (trans_mat t))%nat -> (length (trans_mat t) <= L)%nat ->
  exists ns', apply_next shape ns t = Ok ns' /\ shaped (length (trans_mat t)) N ns'.
Proof.
  intros Hns HN H1 HL. unfold apply_next.
  destruct (center t) as [c |].
  - destruct (dot_each_shaped (trans_mat t) (map (map (fun p => psub p c)) ns) L N)
      as [ns' [E Hns']]; [apply shaped_map; exact Hns | exact HN | exact HL |].
    rewrite E. cbn [bind]. eexists. split; [reflexivity |].
    apply add_pivot_shaped; assumption.
  - destruct (dot_each_shaped (trans_mat t)
                (map (map (fun p => psub p (shape_center shape))) ns) L N)
      as [ns' [E Hns']]; [apply shaped_map; exact Hns | exact HN | exact HL |].
    rewrite E. cbn [bind]. eexists. split; [reflexivity |].
    apply add_pivot_shaped; assumption.
Qed.

Lemma apply_next_too_long (shape : Polygon F) (ns : stack F) (t : Transformation F)
  (L N : nat) :
  shaped L N ns -> (1 <= N)%nat -> (L < length (trans_mat t))%nat ->
  apply_next shape ns t = Raise IndexError.
Proof.
  intros Hns HN HL. unfold apply_next.
  destruct (center t) as [c |];
    rewrite (dot_each_too_long _ _ L N); try reflexivity; try assumption;
    apply shaped_map; exact Hns.
Qed.

Lemma apply_first_shaped (shape : Polygon F) (t : Transformation F) :
  (1 <= length (trans_mat t))%nat ->
  exists ns, apply_first shape t = Ok ns /\
             shaped (length (trans_mat t)) (length (points shape)) ns.
Proof.
  intros H1. rewrite apply_first_about by (intros E; rewrite E in H1; simpl in H1; lia).
  eexists. split; [reflexivity |]. split.
  - apply length_map.
  - apply Forall_forall. intros fr Hfr. apply in_map_iff in Hfr.
    destruct Hfr as [m [<- _]]. apply length_map.
Qed.

Lemma In_reorder (ts : list addr) (t : addr) : In t (reorder store ts) <-> In t ts.
Proof.
  rewrite reorder_stable_partition. unfold stable_partition.
  rewrite in_app_iff, !filter_In. split.
  - intros [[Hin _] | [Hin _]]; exact Hin.
  - intros Hin. destruct (center_relative store t) eqn:E; [left | right]; split; auto.
Qed.

Lemma nonempty_length {A : Type} (l : list A) : l <> [] -> (1 <= length l)%nat.
Proof. destruct l; [contradiction | simpl; lia]. Qed.

(** X11: on a non-empty list of transformations whose stacks all have the
    same number L >= 1 of matrices, and a shape with at least one point, the
    compositor returns: the result has L point sets, each with as many
    points as the shape. *)
Theorem render_shape_returns (shape : Polygon F) (ts : list addr) (L : nat) :
  ts <> [] -> (1 <= L)%nat -> points shape <> [] ->
  (forall t, In t ts -> length (trans_mat (store t)) = L) ->
  exists st,
    render_shape store shape ts = Ok st /\ shaped L (length (points shape)) st.
Proof.
  intros Hts HL Hpts Hall. unfold render_shape.
  pose proof (nonempty_length _ Hpts) as HN.
  destruct (reorder store ts) as [| t0 rest] eqn:Hre.
  { destruct ts as [| t ts']; [contradiction |].
    assert (Hin : In t (reorder store (t :: ts'))) by (apply In_reorder; left; reflexivity).
    rewrite Hre in Hin. destruct Hin. }
  assert (Hin : forall t, In t (t0 :: rest) -> In t ts).
  { intros t Ht. apply In_reorder. rewrite Hre. exact Ht. }
  cbn [apply_all].
  destruct (apply_first_shaped shape (store t0)) as [ns [E Hns]].
  { rewrite (Hall t0) by (apply Hin; left; reflexivity). exact HL. }
  rewrite E. cbn [bind].
  rewrite (Hall t0) in Hns by (apply Hin; left; reflexivity).
  apply (foldM_ok (shaped L (length (points shape)))); [| exact Hns].
  intros s t Hs Ht.
  assert (Ht' : length (trans_mat (store t)) = L) by (apply Hall, Hin; right; exact Ht).
  destruct (apply_next_shaped shape s (store t) L (length (points shape)))
    as [s' [E' Hs']]; try assumption; try lia.
  exists s'. split; [exact E' |]. rewrite Ht' in Hs'. exact Hs'.
Qed.

Lemma reorder_same_kind (a b : addr) :
  center_relative store a = center_relative store b -> reorder store [a; b] = [a; b].
Proof.
  intros Hk. rewrite reorder_stable_partition. unfold stable_partition. cbn [filter].
  rewrite Hk. destruct (center_relative store b); reflexivity.
Qed.

(** X12: two transformations of the same kind (both with a pivot, or both
    without) of different depths: when the second has more matrices than
    the first, the compositor raises IndexError; when it has fewer, the
    animation is cut to the depth of the second. *)
Theorem render_shape_depths (shape : Polygon F) (a b : addr) :
  center_relative store a = center_relative store b ->
  points shape <> [] ->
  (1 <= length (trans_mat (store a)))%nat ->
  (1 <= length (trans_mat (store b)))%nat ->
  ((length (trans_mat (store a)) < length (trans_mat (store b)))%nat ->
   render_shape store shape [a; b] = Raise IndexError) /\
  ((length (trans_mat (store b)) <= length (trans_mat (store a)))%nat ->
   exists st,
     render_shape store shape [a; b] = Ok st /\
     shaped (length (trans_mat (store b))) (length (points shape)) st).
Proof.
  intros Hk Hpts Ha Hb. unfold render_shape. rewrite (reorder_same_kind a b Hk).
  cbn [apply_all foldM].
  pose proof (nonempty_length _ Hpts) as HN.
  destruct (apply_first_shaped shape (store a) Ha) as [ns [E Hns]].
  rewrite E. cbn [bind]. split.
  - intros Hlt.
    rewrite (apply_next_too_long shape ns (store b) _ _ Hns HN Hlt). reflexivity.
  - intros Hle.
    destruct (apply_next_shaped shape ns (store b) _ _ Hns HN Hb Hle) as [ns' [E' Hns']].
    rewrite E'. cbn [bind]. exists ns'. split; [reflexivity | exact Hns'].
Qed.

Lemma mapM_nth_error {A B : Type} (f : A -> result B) (l : list A) (bs : list B)
  (n : nat) (x : A) :
  mapM f l = Ok bs -> nth_error l n = Some x ->
  exists b, f x = Ok b /\ nth_error bs n = Some b.
Proof.
  revert bs n. induction l as [| a l IH]; intros bs n; simpl.
  - intros _ Hn. destruct n; discriminate.
  - destruct (f a) as [b |] eqn:E; simpl; [| discriminate].
    destruct (mapM f l) as [bs' |]; simpl; [| discriminate].
    intros [= <-]. destruct n as [| n]; simpl.
    + intros [= <-]. exists b. split; [exact E | reflexivity].
    + intros Hn. apply (IH bs' n eq_refl Hn).
Qed.

Lemma mapM_getitem {A B : Type} (f : A -> result B) (l : list A) (bs : list B)
  (i : Z) (x : A) :
  mapM f l = Ok bs -> getitem l i = Ok x ->
  exists b, f x = Ok b /\ getitem bs i = Ok b.
Proof.
  intros Hm Hx. unfold getitem in *.
  destruct (nth_error l (Z.to_nat i)) as [y |] eqn:E; [| discriminate].
  injection Hx as ->.
  destruct (mapM_nth_error f l bs _ x Hm E) as [b [Hb Hn]].
  exists b. split; [exact Hb |]. rewrite Hn. reflexivity.
Qed.

Lemma getitem_map {A B : Type} (g : A -> B) (l : list A) (i : Z) (x : A) :
  getitem l i = Ok x -> getitem (map g l) i = Ok (g x).
Proof.
  unfold getitem. rewrite nth_error_map.
  destruct (nth_error l (Z.to_nat i)); [| discriminate].
  intros [= ->]. reflexivity.
Qed.

Lemma getitem_range (n i : Z) : 0 <= i < n -> getitem (range n) i = Ok i.
Proof.
  intros Hi. rewrite <- (map_id (range n)).
  apply (getitem_map_range (fun z => z) n i Hi).
Qed.

(** The point sets of a later transformation: at the index [i], the point
    set before it moved about the pivot by the matrix [i]. *)
Lemma apply_next_frame (shape : Polygon F) (ns st : stack F) (t : Transformation F)
  (i : Z) (m : mat2 F) (fr : frame F) :
  apply_next shape ns t = Ok st -> 0 <= i ->
  getitem (trans_mat t) i = Ok m -> getitem ns i = Ok fr ->
  getitem st i = Ok (map (about (pivot_of shape t) m) fr).
Proof.
  intros Hnext Hi Hm Hfr. unfold apply_next, pivot_of in *.
  assert (Hlt : i < len (trans_mat t)).
  { destruct (getitem_nth (trans_mat t) i m m Hm) as [Hlt _]. unfold len. lia. }
  assert (Hgen : forall c ns2,
            dot_each (trans_mat t) (map (map (fun p => psub p c)) ns) = Ok ns2 ->
            getitem (add_pivot ns2 c) i = Ok (map (about c m) fr)).
  { intros c ns2 Hdot. unfold dot_each in Hdot.
    destruct (mapM_getitem _ _ _ i i Hdot (getitem_range _ i (conj Hi Hlt)))
      as [b [Hb Hgb]].
    rewrite Hm in Hb. cbn [bind] in Hb.
    rewrite (getitem_map (map (fun p => psub p c)) ns i fr Hfr) in Hb. cbn [bind] in Hb.
    assert (Hb' : b = np_dot m (map (fun p => psub p c) fr)).
    { destruct (map (fun p => psub p c) fr); [discriminate | congruence]. }
    subst b. unfold add_pivot.
    destruct ns2 as [| fr2 ns2'].
    { unfold getitem in Hgb. destruct (Z.to_nat i); discriminate. }
    rewrite (getitem_map _ _ i _ Hgb). f_equal.
    unfold np_dot, about. rewrite !map_map. reflexivity. }
  destruct (center t) as [c |].
  - destruct (dot_each (trans_mat t) (map (map (fun p => psub p c)) ns)) as [ns2 |] eqn:E;
      [| discriminate].
    cbn [bind] in Hnext. injection Hnext as <-. apply Hgen. exact E.
  - destruct (dot_each (trans_mat t)
                (map (map (fun p => psub p (shape_center shape))) ns)) as [ns2 |] eqn:E;
      [| discriminate].
    cbn [bind] in Hnext. injection Hnext as <-. apply Hgen. exact E.
Qed.


End Several.

Lemma render_shape_returns_witness :
  exists st,
    render_shape example_store (example_polygon_at 0%nat) [0%nat; 1%nat] = Ok st /\
    shaped 2 (length (points (example_polygon_at 0%nat))) st.
Proof.
  apply (render_shape_returns example_store (example_polygon_at 0%nat) [0%nat; 1%nat] 2).
  - discriminate.
  - lia.
  - discriminate.
  - intros t [<- | [<- | []]]; reflexivity.
Defined.

Lemma render_shape_depths_witness :
  render_shape depth_store (example_polygon_at 0%nat) [0%nat; 1%nat] = Raise IndexError /\
  exists st,
    render_shape depth_store (example_polygon_at 0%nat) [1%nat; 0%nat] = Ok st /\
    shaped 1 (length (points (example_polygon_at 0%nat))) st.
Proof.
  split.
  - apply (proj1 (render_shape_depths depth_store (example_polygon_at 0%nat) 0%nat 1%nat
                    eq_refl ltac:(discriminate) ltac:(simpl; lia) ltac:(simpl; lia))).
    simpl. lia.
  - apply (proj2 (render_shape_depths depth_store (example_polygon_at 0%nat) 1%nat 0%nat
                    eq_refl ltac:(discriminate) ltac:(simpl; lia) ltac:(simpl; lia))).
    simpl. lia.
Defined.


(** ** The executed order of the transformations *)

Section Executed.
Context {F : Type} `{Arith F}.
Variable store : addr -> Transformation F.

Lemma moved_by_app (shape : Polygon F) (i : Z) (l1 l2 : list addr) (p : point F) :
  moved_by store shape i (l1 ++ l2) p =
  moved_by store shape i l2 (moved_by store shape i l1 p).
Proof. unfold moved_by. apply fold_left_app. Qed.

Lemma getitem_matrix (ms : list (mat2 F)) (i : Z) (d : mat2 F) :
  0 <= i -> i < len ms -> getitem ms i = Ok (nth (Z.to_nat i) ms d).
Proof. intros Hi Hlt. apply getitem_nth_ok. unfold len in Hlt. lia. Qed.

(** The later transformations, one after the other: at the index [i] each
    moves the point set it is given. *)
Lemma apply_rest_frame (shape : Polygon F) (i : Z) (rest : list addr) :
  0 <= i ->
  (forall t, In t rest -> i < len (trans_mat (store t))) ->
  forall (ns st : stack F) (fr : frame F),
    foldM (fun new_shape t => apply_next shape new_shape (store t)) rest ns = Ok st ->
    getitem ns i = Ok fr ->
    getitem st i = Ok (map (moved_by store shape i rest) fr).
Proof.
  intros Hi. induction rest as [| t rest IH]; intros Hlen ns st fr; simpl.
  - intros [= <-] Hfr. rewrite Hfr. f_equal. symmetry.
    rewrite <- (map_id fr) at 2. apply map_ext. intros p. reflexivity.
  - destruct (apply_next shape ns (store t)) as [ns1 |] eqn:En; simpl; [| discriminate].
    intros Hst Hfr.
    pose proof (apply_next_frame shape ns ns1 (store t) i _ fr En Hi
                  (getitem_matrix (trans_mat (store t)) i (scaling_matrix (of_int 1)) Hi
                     (Hlen t (or_introl eq_refl))) Hfr) as Hfr1.
    rewrite (IH (fun t' Ht' => Hlen t' (or_intror Ht')) ns1 st _ Hst Hfr1).
    rewrite map_map. reflexivity.
Qed.

(** The point set at the index [i] of what the compositor computes from a
    list: every point of the shape moved by the matrix [i] of each
    transformation, in the order of the list. *)
Lemma apply_all_frame (shape : Polygon F) (ts : list addr) (st : stack F) (i : Z) :
  apply_all store shape ts = Ok st -> 0 <= i ->
  (forall t, In t ts -> i < len (trans_mat (store t))) ->
  getitem st i = Ok (map (moved_by store shape i ts) (points shape)).
Proof.
  destruct ts as [| t0 rest]; [discriminate |]. cbn [apply_all].
  intros Hst Hi Hlen.
  assert (H0 : i < len (trans_mat (store t0))) by (apply Hlen; left; reflexivity).
  assert (Hne : trans_mat (store t0) <> []).
  { intros E. rewrite E in H0. unfold len in H0. simpl in H0. lia. }
  rewrite (apply_first_about shape (store t0) Hne) in Hst. cbn [bind] in Hst.
  rewrite (apply_rest_frame shape i rest Hi (fun t Ht => Hlen t (or_intror Ht)) _ st _ Hst
             (getitem_map _ _ i _
                (getitem_matrix (trans_mat (store t0)) i (scaling_matrix (of_int 1)) Hi H0))).
  rewrite map_map. reflexivity.
Qed.

(** The same for [render_shape]: the transformations without pivot move
    the points first, then the ones with a pivot. *)
Lemma render_shape_frame (shape : Polygon F) (ts : list addr) (st : stack F) (i : Z) :
  render_shape store shape ts = Ok st -> 0 <= i ->
  (forall t, In t ts -> i < len (trans_mat (store t))) ->
  getitem st i =
  Ok (map (fun p =>
             moved_by store shape i (filter (fun t => negb (center_relative store t)) ts)
               (moved_by store shape i (filter (center_relative store) ts) p))
          (points shape)).
Proof.
  unfold render_shape. rewrite reorder_stable_partition. unfold stable_partition.
  intros Hst Hi Hlen.
  rewrite (apply_all_frame shape _ st i Hst Hi).
  - f_equal. apply map_ext. intros p. apply moved_by_app.
  - intros t Hin. apply Hlen. apply in_app_or in Hin.
    destruct Hin as [Hin | Hin]; apply filter_In in Hin; apply Hin.
Qed.

(** A transformation with a pivot and one without, in either order of the
    list: the one without pivot moves the points first. *)
Lemma render_shape_pair (shape : Polygon F) (A B : addr) (st : stack F) (i : Z)
  (mA mB : mat2 F) :
  center_relative store A = false -> center_relative store B = true ->
  render_shape store shape [A; B] = render_shape store shape [B; A] /\
  (render_shape store shape [A; B] = Ok st -> 0 <= i ->
   getitem (trans_mat (store A)) i = Ok mA -> getitem (trans_mat (store B)) i = Ok mB ->
   getitem st i =
   Ok (map (fun p => about (pivot_of shape (store A)) mA (about (shape_center shape) mB p))
           (points shape))).
Proof.
  intros HA HB.
  assert (HAB : reorder store [A; B] = [B; A]).
  { rewrite reorder_stable_partition. unfold stable_partition. cbn [filter].
    rewrite HA, HB. reflexivity. }
  assert (HBA : reorder store [B; A] = [B; A]).
  { rewrite reorder_stable_partition. unfold stable_partition. cbn [filter].
    rewrite HA, HB. reflexivity. }
  split.
  - unfold render_shape. rewrite HAB, HBA. reflexivity.
  - unfold render_shape. rewrite HAB. intros Hst Hi HmA HmB.
    destruct (getitem_nth _ _ _ (scaling_matrix (of_int 1)) HmA) as [HlA HnA].
    destruct (getitem_nth _ _ _ (scaling_matrix (of_int 1)) HmB) as [HlB HnB].
    rewrite (apply_all_frame shape [B; A] st i Hst Hi).
    + f_equal. apply map_ext. intros p. unfold moved_by. cbn [fold_left].
      rewrite HnA, HnB. unfold pivot_of at 2.
      unfold center_relative in HB. destruct (center (store B)); [discriminate |].
      reflexivity.
    + intros t [<- | [<- | []]]; unfold len; lia.
Qed.

(** C3: the compositor executes the stable partition of the transformation
    list of every shape. The list it runs is the transformations without
    pivot, then the ones with a fixed pivot, each group in its original
    order; and the result shows that order: at every depth index, the point
    set it returns is the shape's points moved by the transformations
    without pivot in their list order and then by the ones with a pivot in
    their list order, wherever they stood in the list. So
    [fixed-pivot A, center-relative B] runs as [B, A], and gives what
    [center-relative B, fixed-pivot A] gives: B about the center of the
    shape first, then A about its pivot. *)
Theorem render_shape_stable_partition (shape : Polygon F) (ts : list addr) :
  reorder store ts =
    filter (center_relative store) ts ++
    filter (fun t => negb (center_relative store t)) ts /\
  (forall (st : stack F) (i : Z),
     render_shape store shape ts = Ok st -> 0 <= i ->
     (forall t, In t ts -> i < len (trans_mat (store t))) ->
     getitem st i =
     Ok (map (fun p =>
                moved_by store shape i (filter (fun t => negb (center_relative store t)) ts)
                  (moved_by store shape i (filter (center_relative store) ts) p))
             (points shape))) /\
  (forall A B,
     center_relative store A = false -> center_relative store B = true ->
     reorder store [A; B] = [B; A] /\ reorder store [B; A] = [B; A] /\
     render_shape store shape [A; B] = render_shape store shape [B; A] /\
     forall (st : stack F) (i : Z) (mA mB : mat2 F),
       render_shape store shape [A; B] = Ok st -> 0 <= i ->
       getitem (trans_mat (store A)) i = Ok mA ->
       getitem (trans_mat (store B)) i = Ok mB ->
       getitem st i =
       Ok (map (fun p => about (pivot_of shape (store A)) mA
                           (about (shape_center shape) mB p))
               (points shape))).
Proof.
  split; [apply reorder_stable_partition |].
  split; [intros st i; apply render_shape_frame |].
  intros A B HA HB.
  split; [| split].
  - rewrite reorder_stable_partition. unfold stable_partition. cbn [filter].
    rewrite HA, HB. reflexivity.
  - rewrite reorder_stable_partition. unfold stable_partition. cbn [filter].
    rewrite HA, HB. reflexivity.
  - split.
    + apply (render_shape_pair shape A B [] 0 (scaling_matrix (of_int 1))
               (scaling_matrix (of_int 1)) HA HB).
    + intros st i mA mB. apply (render_shape_pair shape A B st i mA mB HA HB).
Qed.

(** C10: every Dilation that the constructor returns has no pivot, for
    every scale factor and depth. The compositor therefore applies it about
    the center of the shape (as first transformation and as a later one),
    and executes it before every transformation with a fixed pivot of the
    same list: the list it runs splits into a part that holds the Dilation
    and not the other, and a later part that holds the other and not the
    Dilation, and every point set of the result is the shape's points moved
    by the first part and then by the second. Listed after a transformation
    with a pivot, the Dilation still moves the points first. *)
Theorem Dilation_center_relative (s : F) (d : Z) (t : Transformation F) :
  Dilation s d = Ok t ->
  center t = None /\
  (forall shape : Polygon F,
     apply_first shape t =
     (new_shape <- np_dot_stack (trans_mat t)
                     (map (fun p => psub p (shape_center shape)) (points shape)) ;;
      Ok (map (map (fun p => padd p (shape_center shape))) new_shape))) /\
  (forall (shape : Polygon F) (new_shape : stack F),
     apply_next shape new_shape t =
     (new_shape <- dot_each (trans_mat t)
                     (map (map (fun p => psub p (shape_center shape))) new_shape) ;;
      Ok (add_pivot new_shape (shape_center shape)))) /\
  (forall (shape : Polygon F) (ts : list addr) (a b : addr),
     store a = t -> center (store b) <> None -> In a ts -> In b ts ->
     center_relative store a = true /\
     pivot_of shape (store a) = shape_center shape /\
     exists l1 l2,
       reorder store ts = l1 ++ l2 /\
       In a l1 /\ ~ In b l1 /\ In b l2 /\ ~ In a l2 /\
       forall (st : stack F) (i : Z),
         render_shape store shape ts = Ok st -> 0 <= i ->
         (forall t', In t' ts -> i < len (trans_mat (store t'))) ->
         getitem st i =
         Ok (map (fun p => moved_by store shape i l2 (moved_by store shape i l1 p))
                 (points shape))) /\
  (forall (shape : Polygon F) (a b : addr) (c : point F) (st : stack F) (i : Z)
          (ma mb : mat2 F),
     store a = t -> center (store b) = Some c ->
     render_shape store shape [b; a] = Ok st -> 0 <= i ->
     getitem (trans_mat t) i = Ok ma -> getitem (trans_mat (store b)) i = Ok mb ->
     getitem st i =
     Ok (map (fun p => about c mb (about (shape_center shape) ma p)) (points shape))).
Proof.
  intros Ht. pose proof (Dilation_center s d t Ht) as Hc.
  split; [exact Hc |].
  split; [intros shape; unfold apply_first; rewrite Hc; reflexivity |].
  split; [intros shape ns; unfold apply_next; rewrite Hc; reflexivity |].
  split.
  - intros shape ts a b Ha Hb Hina Hinb.
    assert (Hca : center_relative store a = true).
    { unfold center_relative. rewrite Ha, Hc. reflexivity. }
    assert (Hcb : center_relative store b = false).
    { unfold center_relative. destruct (center (store b)); [reflexivity | contradiction]. }
    split; [exact Hca |].
    split; [unfold pivot_of; rewrite Ha, Hc; reflexivity |].
    exists (filter (center_relative store) ts),
           (filter (fun t' => negb (center_relative store t')) ts).
    split; [apply reorder_stable_partition |].
    split; [apply filter_In; split; assumption |].
    split; [intros Hin; apply filter_In in Hin; destruct Hin as [_ Hin]; congruence |].
    split; [apply filter_In; split; [assumption | rewrite Hcb; reflexivity] |].
    split; [intros Hin; apply filter_In in Hin; destruct Hin as [_ Hin];
            rewrite Hca in Hin; discriminate |].
    intros st i. apply render_shape_frame.
  - intros shape a b c st i ma mb Ha Hb Hst Hi Hma Hmb.
    assert (Hca : center_relative store a = true).
    { unfold center_relative. rewrite Ha, Hc. reflexivity. }
    assert (Hcb : center_relative store b = false).
    { unfold center_relative. rewrite Hb. reflexivity. }
    rewrite <- Ha in Hma.
    rewrite (proj2 (render_shape_pair shape b a st i mb ma Hcb Hca) Hst Hi Hmb Hma).
    unfold pivot_of. rewrite Hb. reflexivity.
Qed.

End Executed.

Example pivot_store_dilation : Dilation (flt 2) 1 = Ok (pivot_store 1%nat).
Proof. vm_compute. reflexivity. Qed.

Lemma render_shape_stable_partition_witness :
  getitem (value [] (render_shape pivot_store (example_polygon_at 1%nat)
                       [0%nat; 1%nat])) 1 =
  Ok (map (fun p =>
             moved_by pivot_store (example_polygon_at 1%nat) 1
               (filter (fun t => negb (center_relative pivot_store t)) [0%nat; 1%nat])
               (moved_by pivot_store (example_polygon_at 1%nat) 1
                  (filter (center_relative pivot_store) [0%nat; 1%nat]) p))
          (points (example_polygon_at 1%nat))).
Proof.
  apply (proj1 (proj2 (render_shape_stable_partition pivot_store
                         (example_polygon_at 1%nat) [0%nat; 1%nat]))).
  - vm_compute. reflexivity.
  - lia.
  - intros t [<- | [<- | []]]; reflexivity.
Defined.

Lemma Dilation_center_relative_witness :
  getitem (value [] (render_shape pivot_store (example_polygon_at 1%nat)
                       [0%nat; 1%nat])) 1 =
  Ok (map (fun p => about (flt 1, flt 0) quarter_turn
                      (about (shape_center (example_polygon_at 1%nat))
                             (scaling_matrix (flt 3)) p))
          (points (example_polygon_at 1%nat))).
Proof.
  apply (proj2 (proj2 (proj2 (proj2
           (Dilation_center_relative pivot_store (flt 2) 1 (pivot_store 1%nat)
              pivot_store_dilation))))
           (example_polygon_at 1%nat) 1%nat 0%nat (flt 1, flt 0)).
  - reflexivity.
  - reflexivity.
  - vm_compute. reflexivity.
  - lia.
  - reflexivity.
  - reflexivity.
Defined.

(** The order shows in the result: run the other way round, the two
    transformations of the example would give other points. *)
Example pivot_store_order_matters :
  getitem (value [] (render_shape pivot_store (example_polygon_at 1%nat)
                       [0%nat; 1%nat])) 1 <>
  Ok (map (moved_by pivot_store (example_polygon_at 1%nat) 1 [0%nat; 1%nat])
          (points (example_polygon_at 1%nat))).
Proof. vm_compute. discriminate. Qed.

(** ** The inputs of the rasterizers *)

Section RasterInputs.
Context {F : Type} `{Arith F} `{Pixel F}.

(** X14: both rasterizers reject a bad resolution or an empty point list
    before they draw: a negative resolution raises ValueError (no image of a
    negative size), the resolution 0 raises ZeroDivisionError (the step
    size), and an empty point list at a positive resolution raises
    IndexError (its first point is appended to close the ring). Drawing the
    wires on a given image at the resolution 0 raises ZeroDivisionError
    too. *)
Theorem rasterizer_input_errors (points : list (point F)) (bounds : point F)
  (resolution : Z) :
  (resolution < 0 ->
   render_points_as_image points bounds resolution = Raise ValueError /\
   render_points_as_wires points bounds resolution None = Raise ValueError) /\
  (resolution = 0 ->
   render_points_as_image points bounds resolution = Raise ZeroDivisionError /\
   forall img, render_points_as_wires points bounds resolution img =
               Raise ZeroDivisionError) /\
  (0 < resolution -> points = [] ->
   render_points_as_image points bounds resolution = Raise IndexError /\
   forall img, render_points_as_wires points bounds resolution img = Raise IndexError).
Proof.
  unfold render_points_as_image, render_points_as_wires, np_zeros, pixel_points, py_div.
  split; [| split].
  - intros Hr. destruct (Z.ltb_spec resolution 0) as [_ | Hge]; [| lia].
    split; reflexivity.
  - intros ->. cbn [Z.ltb Z.compare Z.eqb bind]. split; [reflexivity |].
    intros [img |]; reflexivity.
  - intros Hr ->. destruct (Z.ltb_spec resolution 0) as [Hlt | _]; [lia |].
    destruct (Z.eqb_spec resolution 0) as [E | _]; [lia |].
    split; [reflexivity |]. intros [img |]; reflexivity.
Qed.

Lemma set_slice_square (n : nat) (img img' : image) (r start stop : Z) :
  set_slice img r start stop = Ok img' -> square n img -> square n img'.
Proof.
  unfold set_slice. destruct (norm_index (len img) r) as [i |]; simpl; [| discriminate].
  intros [= <-]. apply update_row_square. intros row. apply update_slice_length.
Qed.

Lemma set_pixel_square (n : nat) (img img' : image) (r c : Z) :
  set_pixel img r c = Ok img' -> square n img -> square n img'.
Proof.
  unfold set_pixel. destruct (norm_index (len img) r) as [i |]; simpl; [| discriminate].
  destruct (getitem img i) as [row |]; simpl; [| discriminate].
  destruct (norm_index (len row) c) as [j |]; simpl; [| discriminate].
  intros [= <-]. apply update_row_square. intros row'. apply update_from_length.
Qed.

Lemma wire_edge_square (n : nat) (img img' : image) (edge : point F * point F) :
  wire_edge img edge = Ok img' -> square n img -> square n img'.
Proof.
  unfold wire_edge. destruct edge as [p1 p2].
  destruct (fgtb (np_abs (slope_of p1 p2)) (of_int 1)).
  - destruct (py_int _) as [k |]; simpl; [| discriminate].
    intros Hl Hsq. revert Hsq Hl. apply foldM_invariant.
    intros s y_step s' Hs. destruct (truth (slope_of p1 p2)).
    + destruct (y_step_pixel p1 p2 (slope_of p1 p2) y_step) as [[new_y new_x] |];
        simpl; [| discriminate].
      intros Hp. apply (set_pixel_square n _ _ _ _ Hp Hs).
    + intros [= <-]. exact Hs.
  - destruct (py_int _) as [k |]; simpl; [| discriminate].
    intros Hl Hsq. revert Hsq Hl. apply foldM_invariant.
    intros s x_step s' Hs. unfold wire_x_step. destruct (truth (slope_of p1 p2)).
    + destruct (x_step_pixel p1 p2 (slope_of p1 p2) x_step) as [[new_y new_x] |];
        simpl; [| discriminate].
      intros Hp. apply (set_slice_square n _ _ _ _ _ Hp Hs).
    + destruct (py_int (fneg (snd p1))) as [r |]; simpl; [| discriminate].
      destruct (py_int _) as [start |]; simpl; [| discriminate].
      destruct (py_int _) as [stop |]; simpl; [| discriminate].
      intros Hp. apply (set_slice_square n _ _ _ _ _ Hp Hs).
Qed.

Lemma render_points_as_wires_square (n : nat) (points : list (point F))
  (bounds : point F) (resolution : Z) (img0 img : image) :
  render_points_as_wires points bounds resolution (Some img0) = Ok img ->
  square n img0 -> square n img.
Proof.
  unfold render_points_as_wires. cbn [bind].
  destruct (pixel_points points bounds resolution) as [pts |]; simpl; [| discriminate].
  intros Hl Hsq. revert Hsq Hl. apply foldM_invariant.
  intros s e s' Hs He. apply (wire_edge_square n _ _ _ He Hs).
Qed.

(** X15: the size of the images: the filled image of a point list has
    [resolution] rows of [resolution] pixels, and so has the wireframe
    image when no image is given; drawing the wires on a given square image
    keeps its size, whatever the resolution. *)
Theorem rasterizer_image_size (points : list (point F)) (bounds : point F)
  (resolution : Z) (img : image) :
  (render_points_as_image points bounds resolution = Ok img ->
   square (Z.to_nat resolution) img) /\
  (render_points_as_wires points bounds resolution None = Ok img ->
   square (Z.to_nat resolution) img) /\
  (forall n img0,
     square n img0 ->
     render_points_as_wires points bounds resolution (Some img0) = Ok img ->
     square n img).
Proof.
  split; [apply render_points_as_image_square |].
  split.
  - unfold render_points_as_wires.
    destruct (np_zeros resolution) as [img0 |] eqn:E0; cbn [bind]; [| discriminate].
    intros Hw.
    apply (render_points_as_wires_square _ points bounds resolution img0 img).
    + unfold render_points_as_wires. cbn [bind]. exact Hw.
    + apply np_zeros_square. exact E0.
  - intros n img0 Hsq Hw.
    apply (render_points_as_wires_square n points bounds resolution img0 img Hw Hsq).
Qed.

End RasterInputs.

Lemma rasterizer_input_errors_witness :
  render_points_as_image big_square example_bounds (-1) = Raise ValueError /\
  render_points_as_wires big_square example_bounds (-1) None = Raise ValueError.
Proof.
  apply (proj1 (rasterizer_input_errors big_square example_bounds (-1))). lia.
Defined.

Lemma rasterizer_image_size_witness :
  square (Z.to_nat 10) (value [] (render_points_as_image big_square example_bounds 10)).
Proof.
  apply (proj1 (rasterizer_image_size big_square example_bounds 10 _)).
  vm_compute. reflexivity.
Defined.

(** ** Horizontal edges and repeated toggles *)

(** A number minus itself is the float zero. *)
Lemma float_sub_self (y : float) :
  is_number y -> Prim2SF (PrimFloat.sub y y) = S754_zero false.
Proof.
  unfold is_number. intros Hy. rewrite sub_spec.
  destruct (Prim2SF y) as [s | s | | s m e]; try contradiction.
  - destruct s; reflexivity.
  - unfold SF64sub, SFsub. rewrite Z.sub_diag. reflexivity.
Qed.

(** X16: in the filled mode a horizontal edge toggles nothing: for two
    pixel points with the same y (a finite float) the walk along the edge
    has no step and returns the image unchanged, whatever the x of the
    points. *)
Theorem horizontal_edge_toggles_nothing (img : image) (x1 x2 y : float) :
  is_number y -> fill_edge img ((x1, y), (x2, y)) = Ok img.
Proof.
  intros Hy. unfold fill_edge. cbn [snd fst fsub Arith_float py_int np_abs Pixel_float].
  assert (Habs : float_int (PrimFloat.abs (PrimFloat.sub y y)) = Ok 0).
  { unfold float_int. rewrite abs_spec, (float_sub_self y Hy). reflexivity. }
  rewrite Habs. reflexivity.
Qed.

Lemma horizontal_edge_toggles_nothing_witness :
  fill_edge [[true; false]; [false; true]] ((flt 0, flt 1), (flt 2, flt 1)) =
  Ok [[true; false]; [false; true]].
Proof. apply horizontal_edge_toggles_nothing. vm_compute. exact I. Defined.

Lemma update_from_negb_twice (i lo hi : Z) (row : list bool) :
  update_from i lo hi negb (update_from i lo hi negb row) = row.
Proof.
  revert i. induction row as [| b row IH]; intros i; simpl.
  - reflexivity.
  - rewrite IH. destruct ((lo <=? i) && (i <? hi)); [rewrite negb_involutive |];
      reflexivity.
Qed.

Lemma update_slice_negb_twice (start stop : Z) (row : list bool) :
  update_slice negb start stop (update_slice negb start stop row) = row.
Proof.
  unfold update_slice at 1. unfold len. rewrite update_slice_length.
  apply update_from_negb_twice.
Qed.

Lemma update_row_twice (i : nat) (g : list bool -> list bool) (img : image) :
  (forall row, g (g row) = row) -> update_row i g (update_row i g img) = img.
Proof.
  intros Hg. revert i. induction img as [| row img IH]; intros i; simpl.
  - destruct i; reflexivity.
  - destruct i as [| i]; simpl; [rewrite Hg | rewrite IH]; reflexivity.
Qed.

Lemma update_row_length (i : nat) (g : list bool -> list bool) (img : image) :
  length (update_row i g img) = length img.
Proof.
  revert i. induction img as [| row img IH]; intros i; simpl.
  - destruct i; reflexivity.
  - destruct i; simpl; [reflexivity | f_equal; apply IH].
Qed.

(** X17: the toggle of the filled mode undoes itself: inverting the pixels
    of a row to the left of a column twice gives the image back (the parity
    of the number of toggles decides a pixel). *)
Theorem toggle_left_twice (img img' : image) (r stop : Z) :
  toggle_left img r stop = Ok img' -> toggle_left img' r stop = Ok img.
Proof.
  unfold toggle_left.
  destruct (norm_index (len img) r) as [i |] eqn:Ei; simpl; [| discriminate].
  intros [= <-]. unfold len in *. rewrite update_row_length, Ei. simpl.
  rewrite update_row_twice; [reflexivity |].
  intros row. apply update_slice_negb_twice.
Qed.

Lemma toggle_left_twice_witness :
  toggle_left [[true; true; false]; [false; false; true]] (-1) 2 =
  Ok [[true; true; false]; [true; true; true]].
Proof.
  apply (toggle_left_twice [[true; true; false]; [true; true; true]]).
  reflexivity.
Defined.

(** ** The size of the volume *)

Lemma list_set_length {A : Type} (l : list A) (i : nat) (x : A) :
  length (list_set l i x) = length l.
Proof.
  revert i. induction l as [| a l IH]; intros i; simpl.
  - reflexivity.
  - destruct i; simpl; [reflexivity | f_equal; apply IH].
Qed.

Lemma Forall_list_set {A : Type} (P : A -> Prop) (l : list A) (i : nat) (x : A) :
  Forall P l -> P x -> Forall P (list_set l i x).
Proof.
  intros Hl Hx. revert i. induction Hl as [| a l Ha Hl IH]; intros i; simpl.
  - constructor.
  - destruct i; constructor; auto.
Qed.

Lemma Forall_repeat {A : Type} (P : A -> Prop) (x : A) (n : nat) :
  P x -> Forall P (repeat x n).
Proof. intros Hx. induction n; simpl; constructor; assumption. Qed.

(** A loop that returns kept its invariant, and every element passed the
    body. *)
Lemma foldM_elements {A S : Type} (P : S -> Prop) (Q : A -> Prop)
  (f : S -> A -> result S) :
  (forall s a s', P s -> f s a = Ok s' -> P s' /\ Q a) ->
  forall l s s', P s -> foldM f l s = Ok s' -> P s' /\ Forall Q l.
Proof.
  intros Hf. induction l as [| a l IH]; intros s s' Hs; simpl.
  - intros [= <-]. split; [exact Hs | constructor].
  - destruct (f s a) as [s1 |] eqn:E; simpl; [| discriminate].
    intros Hl. destruct (Hf s a s1 Hs E) as [Hs1 Ha].
    destruct (IH s1 s' Hs1 Hl) as [Hs' Hall].
    split; [exact Hs' | constructor; assumption].
Qed.

Section VolumeSize.
Context {F : Type} `{Arith F} `{Pixel F}.

Lemma draw_wires_size (k n : nat) (bounds : point F) (resolution : Z)
  (vol vol' : volume) (shape : stack F) :
  draw_wires bounds resolution vol shape = Ok vol' ->
  length vol = k /\ Forall (square n) vol ->
  (length vol' = k /\ Forall (square n) vol') /\ (length shape <= k)%nat.
Proof.
  unfold draw_wires. intros Hl Hvol.
  destruct (foldM_elements
              (fun s : volume => length s = k /\ Forall (square n) s)
              (fun i : Z => (Z.to_nat i < k)%nat)
              (fun final_volume i =>
                 points <- getitem shape i ;;
                 layer <- getitem final_volume i ;;
                 image <- render_points_as_wires points bounds resolution (Some layer) ;;
                 Ok (list_set final_volume (Z.to_nat i) image))) with
    (l := range (len shape)) (s := vol) (s' := vol') as [Hvol' Hall];
    [| exact Hvol | exact Hl |].
  - intros s i s' [Hk Hsq].
    destruct (getitem shape i) as [points |]; simpl; [| discriminate].
    destruct (getitem s i) as [layer |] eqn:El; simpl; [| discriminate].
    destruct (render_points_as_wires points bounds resolution (Some layer))
      as [image |] eqn:Ew; simpl; [| discriminate].
    intros [= <-].
    destruct (getitem_nth s i layer [] El) as [Hi _].
    split; [split |].
    + rewrite list_set_length. exact Hk.
    + apply Forall_list_set; [exact Hsq |].
      apply (render_points_as_wires_square n _ _ _ _ _ Ew).
      rewrite Forall_forall in Hsq. apply Hsq. apply (getitem_In _ _ _ El).
    + rewrite <- Hk. exact Hi.
  - split; [exact Hvol' |].
    destruct (Nat.eq_dec (length shape) 0) as [E0 | Hne]; [lia |].
    rewrite Forall_forall in Hall.
    assert (Hin : In (len shape - 1) (range (len shape))).
    { apply in_range. unfold len. lia. }
    specialize (Hall _ Hin). unfold len in Hall. lia.
Qed.

(** X18: the size of the volume in the fast mode. When the assembly on the
    wires returns, the volume has as many layers as the first rendered shape
    has point sets, every layer is a square image of the resolution, and no
    shape has more point sets than the first one (a longer one ends the call
    on the index of a layer that does not exist); shorter shapes are drawn
    on the first layers only. *)
Theorem fast_volume_size (fs : list (stack F)) (bounds : point F) (resolution : Z)
  (vol : volume) :
  assemble fs bounds resolution true = Ok vol ->
  exists first,
    getitem fs 0 = Ok first /\
    length vol = length first /\
    Forall (square (Z.to_nat resolution)) vol /\
    Forall (fun shape => (length shape <= length first)%nat) fs.
Proof.
  unfold assemble.
  destruct (getitem fs 0) as [first |]; simpl; [| discriminate].
  destruct (np_zeros resolution) as [layer |] eqn:Ez; simpl; [| discriminate].
  intros Hl. exists first. split; [reflexivity |].
  destruct (foldM_elements
              (fun s : volume =>
                 length s = length first /\ Forall (square (Z.to_nat resolution)) s)
              (fun shape : stack F => (length shape <= length first)%nat)
              (draw_wires bounds resolution)) with
    (l := fs) (s := repeat layer (length first)) (s' := vol) as [[Hk Hsq] Hall].
  - intros s shape s' Hs Hd.
    apply (draw_wires_size _ _ _ _ _ _ _ Hd Hs).
  - split; [apply repeat_length |].
    apply Forall_repeat. apply np_zeros_square. exact Ez.
  - exact Hl.
  - split; [exact Hk |]. split; [exact Hsq | exact Hall].
Qed.

End VolumeSize.

Lemma fast_volume_size_witness :
  exists first,
    getitem [[big_square; big_square]; [small_square]] 0 = Ok first /\
    length (value [] (assemble [[big_square; big_square]; [small_square]]
                        example_bounds 10 true)) = length first /\
    Forall (square (Z.to_nat 10))
      (value [] (assemble [[big_square; big_square]; [small_square]]
                   example_bounds 10 true)) /\
    Forall (fun shape => (length shape <= length first)%nat)
      [[big_square; big_square]; [small_square]].
Proof.
  apply (fast_volume_size [[big_square; big_square]; [small_square]] example_bounds 10).
  vm_compute. reflexivity.
Defined.

Lemma np_logical_or_length (fv vd fv1 : volume) :
  np_logical_or fv vd = Ok fv1 ->
  (1 <= length vd)%nat /\
  ((length fv1 = length fv /\ (length vd = 1%nat \/ length vd = length fv)) \/
   (length fv = 1%nat /\ length fv1 = length vd)).
Proof.
  unfold np_logical_or. destruct vd as [| v0 vd']; [discriminate |].
  intros Hd. split; [simpl; lia |]. revert Hd.
  destruct (Z.eqb_spec (len fv) (len (v0 :: vd'))) as [E | _].
  - intros [= <-]. unfold len in E. apply Nat2Z.inj in E. left.
    split; [apply zip_with_length; exact E | right; symmetry; exact E].
  - destruct (Z.eqb_spec (len (v0 :: vd')) 1) as [E1 | _].
    + intros [= <-]. unfold len in E1. left.
      split; [apply length_map | left; lia].
    + destruct fv as [| a0 [| a1 fv']]; try discriminate.
      intros [= <-]. right. split; [reflexivity |].
      simpl. rewrite length_map. reflexivity.
Qed.

Section FilledSize.
Context {F : Type} `{Arith F} `{Pixel F}.

Lemma draw_filled_size (bounds : point F) (resolution : Z) (fv fv1 : volume)
  (shape : stack F) :
  draw_filled bounds resolution fv shape = Ok fv1 ->
  Forall (square (Z.to_nat resolution)) fv ->
  Forall (square (Z.to_nat resolution)) fv1 /\
  (1 <= length shape)%nat /\
  ((length fv1 = length fv /\ (length shape = 1%nat \/ length shape = length fv)) \/
   (length fv = 1%nat /\ length fv1 = length shape)).
Proof.
  unfold draw_filled. intros Hd Hfv.
  destruct (mapM (fun points => render_points_as_image points bounds resolution) shape)
    as [vd |] eqn:Em; simpl in Hd; [| discriminate].
  assert (Hlen : length vd = length shape) by (apply (mapM_length _ _ _ Em)).
  assert (Hvd : Forall (square (Z.to_nat resolution)) vd).
  { apply (mapM_Forall _ _ _ _ (fun a b => render_points_as_image_square a bounds resolution b) Em). }
  split.
  - apply (np_logical_or_spec _ _ _ _ Hd Hfv Hvd).
  - rewrite <- Hlen. apply (np_logical_or_length _ _ _ Hd).
Qed.

Lemma fold_draw_filled_size (bounds : point F) (resolution : Z) (fs : list (stack F)) :
  forall fv vol,
    foldM (draw_filled bounds resolution) fs fv = Ok vol ->
    Forall (square (Z.to_nat resolution)) fv ->
    Forall (square (Z.to_nat resolution)) vol /\
    (length vol = length fv \/ length fv = 1%nat) /\
    (length fv <= length vol)%nat /\
    Forall (fun shape => (1 <= length shape)%nat /\
                         (length shape = 1%nat \/ length shape = length vol)) fs.
Proof.
  induction fs as [| shape fs IH]; intros fv vol; simpl.
  - intros [= <-] Hfv. split; [exact Hfv |]. split; [left; reflexivity |].
    split; [lia | constructor].
  - destruct (draw_filled bounds resolution fv shape) as [fv1 |] eqn:Ed; simpl;
      [| discriminate].
    intros Hl Hfv.
    destruct (draw_filled_size _ _ _ _ _ Ed Hfv) as [Hfv1 [Hpos Hstep]].
    destruct (IH fv1 vol Hl Hfv1) as [Hvol [Hkeep [Hmono Hall]]].
    split; [exact Hvol |].
    split; [lia |]. split; [lia |].
    constructor; [split; [exact Hpos | lia] | exact Hall].
Qed.

(** X19: the size of the volume in the filled mode, at a resolution above
    1. When the assembly of the filled shapes returns, every layer is a
    square image of the resolution, the volume has at least one layer, and
    every rendered shape has either one point set (its single image is
    or-ed into every layer) or as many point sets as the volume has layers;
    the volume has the depth of the first shape unless that shape has a
    single point set, in which case a later, longer shape gives the depth. *)
Theorem filled_volume_size (fs : list (stack F)) (bounds : point F) (resolution : Z)
  (vol : volume) :
  1 < resolution ->
  assemble fs bounds resolution false = Ok vol ->
  exists first,
    getitem fs 0 = Ok first /\
    Forall (square (Z.to_nat resolution)) vol /\
    (1 <= length vol)%nat /\
    (length vol = length first \/ length first = 1%nat) /\
    Forall (fun shape => length shape = 1%nat \/ length shape = length vol) fs.
Proof.
  intros _. unfold assemble.
  destruct (getitem fs 0) as [first |] eqn:Ef; simpl; [| discriminate].
  destruct (np_zeros resolution) as [layer |] eqn:Ez; simpl; [| discriminate].
  intros Hl. exists first. split; [reflexivity |].
  destruct (fold_draw_filled_size bounds resolution fs _ vol Hl)
    as [Hvol [Hkeep [Hmono Hall]]].
  { apply Forall_repeat. apply np_zeros_square. exact Ez. }
  rewrite repeat_length in Hkeep, Hmono.
  assert (Hfirst : (1 <= length first)%nat).
  { rewrite Forall_forall in Hall. apply (Hall first). apply (getitem_In _ _ _ Ef). }
  split; [exact Hvol |]. split; [lia |]. split; [exact Hkeep |].
  revert Hall. apply Forall_impl. intros shape [_ Hs]. exact Hs.
Qed.

End FilledSize.

Lemma filled_volume_size_witness :
  exists first,
    getitem [[big_square]; [small_square; big_square]] 0 = Ok first /\
    Forall (square (Z.to_nat 10))
      (value [] (assemble [[big_square]; [small_square; big_square]]
                   example_bounds 10 false)) /\
    (1 <= length (value [] (assemble [[big_square]; [small_square; big_square]]
                              example_bounds 10 false)))%nat /\
    (length (value [] (assemble [[big_square]; [small_square; big_square]]
                         example_bounds 10 false)) = length first \/
     length first = 1%nat) /\
    Forall (fun shape =>
              length shape = 1%nat \/
              length shape =
              length (value [] (assemble [[big_square]; [small_square; big_square]]
                                  example_bounds 10 false)))
      [[big_square]; [small_square; big_square]].
Proof.
  apply (filled_volume_size [[big_square]; [small_square; big_square]] example_bounds 10).
  - lia.
  - vm_compute. reflexivity.
Defined.

(** ** The rendered shapes are kept, and the export needs 501 of them *)

(** A loop whose body only fails with [e], and fails on one element. *)
Lemma mapM_raises {A B : Type} (f : A -> result B) (e : exn) (l : list A) :
  (forall a, In a l -> (exists b, f a = Ok b) \/ f a = Raise e) ->
  (exists a, In a l /\ f a = Raise e) ->
  mapM f l = Raise e.
Proof.
  induction l as [| a l IH]; intros Hall [x [Hin Hx]]; simpl.
  - destruct Hin.
  - destruct (Hall a (or_introl eq_refl)) as [[b Hb] | Ha].
    + rewrite Hb. simpl. rewrite IH; [reflexivity | |].
      * intros a' Ha'. apply Hall. right. exact Ha'.
      * destruct Hin as [-> | Hin]; [congruence |]. exists x. split; assumption.
    + rewrite Ha. reflexivity.
Qed.

Section Kept.
Context {F : Type} `{Arith F} `{Pixel F}.
Variable polygon_at : addr -> Polygon F.
Variable transformation_at : addr -> Transformation F.

Lemma render_shapes_final (self self' : Animation F) :
  render_shapes polygon_at transformation_at self = Ok self' ->
  shapes self' = shapes self /\ exists fs, final_shapes self' = Some fs.
Proof.
  unfold render_shapes.
  destruct (mapM _ (shapes self)) as [fs |]; simpl; [| discriminate].
  intros [= <-]. split; [reflexivity | exists fs; reflexivity].
Qed.

(** X20: the state that a rendering leaves. [render_volume_data] never
    changes the mapping of the animation; calling it again on the animation
    it leaves gives the same result and leaves the same animation; the
    animation it leaves does not depend on the bounds, the resolution or the
    mode; and [write_to_scad] leaves the very same animation. *)
Theorem rendering_state (self : Animation F) (bounds bounds' : point F)
  (resolution resolution' : Z) (fast fast' : bool) :
  shapes (fst (render_volume_data polygon_at transformation_at self bounds
                 resolution fast)) = shapes self /\
  render_volume_data polygon_at transformation_at
    (fst (render_volume_data polygon_at transformation_at self bounds resolution fast))
    bounds resolution fast =
  render_volume_data polygon_at transformation_at self bounds resolution fast /\
  fst (render_volume_data polygon_at transformation_at self bounds' resolution' fast') =
  fst (render_volume_data polygon_at transformation_at self bounds resolution fast) /\
  fst (write_to_scad polygon_at transformation_at self) =
  fst (render_volume_data polygon_at transformation_at self bounds resolution fast).
Proof.
  unfold render_volume_data, write_to_scad.
  destruct (final_shapes self) as [fs |] eqn:Efs.
  - cbn [fst snd]. rewrite Efs. repeat split; reflexivity.
  - destruct (render_shapes polygon_at transformation_at self) as [self' |] eqn:Er.
    + destruct (render_shapes_final _ _ Er) as [Hsh [fs' Hfs']].
      cbn [fst snd]. rewrite Hfs'. repeat split; try reflexivity. exact Hsh.
    + cbn [fst snd]. rewrite Efs, Er. repeat split; reflexivity.
Qed.

Lemma solid_shapes_short (shape : stack F) :
  (length shape < 501)%nat -> solid_shapes shape = Raise IndexError.
Proof.
  intros Hlen. unfold solid_shapes. apply mapM_raises.
  - intros i _. unfold getitem.
    destruct (nth_error shape (Z.to_nat i)) as [fr |]; simpl;
      [left; eexists; reflexivity | right; reflexivity].
  - exists (Z.of_nat (length shape)). split; [apply in_range; lia |].
    rewrite getitem_out by lia. reflexivity.
Qed.

Lemma solid_shapes_long (shape : stack F) :
  (501 <= length shape)%nat ->
  solid_shapes shape =
  Ok (map (fun i => up (fdiv (of_int i) (of_int 5))
                       (linear_extrude (fdiv (of_int 21) (of_int 100))
                                       (sp_polygon (nth (Z.to_nat i) shape []))))
          (range 501)).
Proof.
  intros Hlen. unfold solid_shapes. apply mapM_total.
  intros i Hi. apply in_range in Hi.
  rewrite (getitem_nth_ok shape i []) by lia. reflexivity.
Qed.

(** X21: the export reads exactly the first 501 point sets of every
    rendered shape. With the rendered shapes at hand, [write_to_scad] raises
    IndexError as soon as one shape has fewer than 501 point sets; when all
    have at least 501, it gives for every shape 501 extrusions, the i-th of
    the i-th point set, of height .21 and raised by i/5, and the point sets
    after the first 501 are not used. The animation is left as it was. *)
Theorem write_to_scad_needs_501 (self : Animation F) (fs : list (stack F)) :
  final_shapes self = Some fs ->
  fst (write_to_scad polygon_at transformation_at self) = self /\
  (Exists (fun shape => (length shape < 501)%nat) fs ->
   snd (write_to_scad polygon_at transformation_at self) = Raise IndexError) /\
  (Forall (fun shape => (501 <= length shape)%nat) fs ->
   snd (write_to_scad polygon_at transformation_at self) =
   Ok (map (fun shape =>
              map (fun i => up (fdiv (of_int i) (of_int 5))
                               (linear_extrude (fdiv (of_int 21) (of_int 100))
                                               (sp_polygon (nth (Z.to_nat i) shape []))))
                  (range 501)) fs)).
Proof.
  intros Efs. unfold write_to_scad. rewrite Efs. cbn [fst snd].
  split; [reflexivity |]. split.
  - intros Hex. apply Exists_exists in Hex. destruct Hex as [shape [Hin Hshort]].
    apply mapM_raises.
    + intros s _. destruct (Nat.lt_ge_cases (length s) 501) as [Hs | Hs].
      * right. apply solid_shapes_short. exact Hs.
      * left. eexists. apply solid_shapes_long. exact Hs.
    + exists shape. split; [exact Hin | apply solid_shapes_short; exact Hshort].
  - intros Hall. apply mapM_total. intros shape Hin.
    apply solid_shapes_long. rewrite Forall_forall in Hall. apply Hall. exact Hin.
Qed.

(** X22: the failures of the assembly that do not depend on the shapes'
    points. Without rendered shapes the assembly raises IndexError (the first
    shape is looked up); with some, a negative resolution raises ValueError
    in both modes (no array of a negative size), and the resolution 0 raises
    ZeroDivisionError in both modes as soon as the first shape has a point
    set (the step size of its rasterization). *)
Theorem assemble_input_errors (fs : list (stack F)) (bounds : point F) (resolution : Z)
  (fast : bool) :
  (fs = [] -> assemble fs bounds resolution fast = Raise IndexError) /\
  (fs <> [] -> resolution < 0 -> assemble fs bounds resolution fast = Raise ValueError) /\
  (forall first, getitem fs 0 = Ok first -> first <> [] -> resolution = 0 ->
     assemble fs bounds resolution fast = Raise ZeroDivisionError).
Proof.
  split; [| split].
  - intros ->. reflexivity.
  - intros Hne Hr. unfold assemble. destruct fs as [| first fs]; [contradiction |].
    cbn [getitem Z.to_nat nth_error bind]. unfold np_zeros.
    destruct (Z.ltb_spec resolution 0) as [_ | Hge]; [reflexivity | lia].
  - intros first Hfirst Hne ->. unfold assemble. rewrite Hfirst.
    destruct fs as [| first' fs]; [discriminate |].
    cbn in Hfirst. injection Hfirst as ->.
    destruct first as [| points first]; [contradiction |].
    cbn [bind np_zeros Z.ltb Z.compare length repeat].
    destruct fast; cbn [foldM].
    + unfold draw_wires.
      replace (range (len (points :: first)))
        with (0 :: map Z.of_nat (seq 1 (length first))).
      * cbn [foldM getitem Z.to_nat nth_error bind].
        unfold render_points_as_wires, pixel_points, py_div. reflexivity.
      * unfold range, len. rewrite Nat2Z.id. reflexivity.
    + unfold draw_filled. cbn [mapM].
      unfold render_points_as_image at 1. unfold pixel_points, py_div. reflexivity.
Qed.

End Kept.

Lemma write_to_scad_needs_501_witness :
  snd (write_to_scad example_polygon_at example_store one_square_rendered) =
  Raise IndexError.
Proof.
  apply (proj1 (proj2 (write_to_scad_needs_501 example_polygon_at example_store
                         one_square_rendered [[big_square; big_square]] eq_refl))).
  apply Exists_cons_hd. simpl. lia.
Defined.

Lemma assemble_input_errors_witness :
  assemble [[big_square]] example_bounds 0 false = Raise ZeroDivisionError.
Proof.
  apply (proj2 (proj2 (assemble_input_errors [[big_square]] example_bounds 0 false))
           [big_square]).
  - reflexivity.
  - discriminate.
  - reflexivity.
Defined.

(** ** Adding a shape *)

Lemma dict_get_set_same {V : Type} (d : list (addr * V)) (k : addr) (v : V) :
  dict_get (dict_set d k v) k = Some v.
Proof.
  induction d as [| [k' v'] d IH]; simpl.
  - rewrite Nat.eqb_refl. reflexivity.
  - destruct (Nat.eqb k' k) eqn:E; simpl; rewrite E; [reflexivity | exact IH].
Qed.

Lemma dict_get_set_other {V : Type} (d : list (addr * V)) (k q : addr) (v : V) :
  q <> k -> dict_get (dict_set d k v) q = dict_get d q.
Proof.
  intros Hq. induction d as [| [k' v'] d IH]; simpl.
  - destruct (Nat.eqb_spec k q) as [E | _]; [congruence | reflexivity].
  - destruct (Nat.eqb_spec k' k) as [E | _]; simpl.
    + subst k'. destruct (Nat.eqb_spec k q) as [E | _]; [congruence | reflexivity].
    + destruct (Nat.eqb k' q); [reflexivity | exact IH].
Qed.

Lemma dict_set_twice {V : Type} (d : list (addr * V)) (k : addr) (v v' : V) :
  dict_set (dict_set d k v) k v' = dict_set d k v'.
Proof.
  induction d as [| [k' w] d IH]; simpl.
  - rewrite Nat.eqb_refl. reflexivity.
  - destruct (Nat.eqb k' k) eqn:E; simpl; rewrite E; [reflexivity | rewrite IH; reflexivity].
Qed.

Lemma dict_set_keys {V : Type} (d : list (addr * V)) (k : addr) (v : V) :
  dict_get d k <> None -> map fst (dict_set d k v) = map fst d.
Proof.
  induction d as [| [k' w] d IH]; simpl.
  - intros Hn. contradiction.
  - destruct (Nat.eqb k' k); simpl; [reflexivity |].
    intros Hn. rewrite IH by exact Hn. reflexivity.
Qed.

(** X23: [add_shape] binds the polygon to the transformations and to
    nothing else. Afterwards the polygon has the new list, every other
    polygon has the list it had, and the rendered shapes kept by the
    animation are untouched; adding the same polygon a second time replaces
    the first list, so that a polygon is never held twice; and a polygon
    that is already in the animation keeps its place among the shapes. *)
Theorem add_shape_replaces {F : Type} (self : Animation F) (polygon other : addr)
  (transformations transformations' : list addr) :
  dict_get (shapes (add_shape self polygon transformations)) polygon =
    Some transformations /\
  (other <> polygon ->
   dict_get (shapes (add_shape self polygon transformations)) other =
   dict_get (shapes self) other) /\
  add_shape (add_shape self polygon transformations) polygon transformations' =
    add_shape self polygon transformations' /\
  (dict_get (shapes self) polygon <> None ->
   map fst (shapes (add_shape self polygon transformations)) = map fst (shapes self)) /\
  final_shapes (add_shape self polygon transformations) = final_shapes self.
Proof.
  unfold add_shape. cbn [shapes final_shapes].
  split; [apply dict_get_set_same |].
  split; [apply dict_get_set_other |].
  split; [rewrite dict_set_twice; reflexivity |].
  split; [apply dict_set_keys | reflexivity].
Qed.

Lemma add_shape_replaces_witness :
  dict_get (shapes (add_shape two_squares 0%nat [2%nat])) 1%nat =
  dict_get (shapes two_squares) 1%nat.
Proof.
  apply (proj1 (proj2 (add_shape_replaces two_squares 0%nat 1%nat [2%nat] []))).
  discriminate.
Defined.
